(** * Bootstrap token lifecycle (bootstrap/kubeadm/controllers/token.go)

    A shallow embedding of [createToken], [getToken], [refreshToken] and
    [shouldRotate], together with the parts of their collaborators that the
    four functions rely on: the bootstrap token grammar, the RFC 3339
    rendering of instants, and the object store behind [client.Client]. *)

From Stdlib Require Import ZArith Lia Bool List Ascii String.
From stdpp Require Import base option gmap strings.

Local Open Scope Z_scope.

(** ** Instants and durations ([time]) *)

Module Time.

(** A [time.Duration] is a count of nanoseconds. *)
Definition Duration := Z.
Definition Second : Duration := 1000000000.
Definition Minute : Duration := 60 * Second.

(** A [time.Time] is kept as its instant: nanoseconds since
    1970-01-01T00:00:00Z.  The location only matters for rendering, and
    every rendering in token.go goes through [UTC]. *)
Definition Time := Z.

Definition UTC (t : Time) : Time := t.
Definition Add (t : Time) (d : Duration) : Time := t + d.
Definition Before (t u : Time) : bool := t <? u.

(** *** Proleptic Gregorian calendar *)

Definition days_per_era : Z := 146097.
Definition epoch_shift : Z := 719468.

Definition isLeap (y : Z) : bool :=
  (y mod 4 =? 0) && (negb (y mod 100 =? 0) || (y mod 400 =? 0)).

Definition daysIn (m y : Z) : Z :=
  if m =? 2 then (if isLeap y then 29 else 28)
  else if (m =? 4) || (m =? 6) || (m =? 9) || (m =? 11) then 30
  else 31.

(** Position of a day inside its 400-year era (eras start on 1 March):
    year of era, month, day of month. *)
Definition era_date (doe : Z) : Z * Z * Z :=
  let yoe := (doe - doe / 1460 + doe / 36524 - doe / 146096) / 365 in
  let doy := doe - (365 * yoe + yoe / 4 - yoe / 100) in
  let mp := (5 * doy + 2) / 153 in
  let d := doy - (153 * mp + 2) / 5 + 1 in
  let m := if mp <? 10 then mp + 3 else mp - 9 in
  (yoe, m, d).

(** Inverse direction: day of era from year of era, month, day. *)
Definition era_day (yoe m d : Z) : Z :=
  let mp := if 2 <? m then m - 3 else m + 9 in
  let doy := (153 * mp + 2) / 5 + d - 1 in
  yoe * 365 + yoe / 4 - yoe / 100 + doy.

(** Civil date of a day number (days since 1970-01-01). *)
Definition civil (z : Z) : Z * Z * Z :=
  let z := z + epoch_shift in
  let era := z / days_per_era in
  let '(yoe, m, d) := era_date (z mod days_per_era) in
  let y := yoe + era * 400 in
  (if m <=? 2 then y + 1 else y, m, d).

(** Day number of a civil date. *)
Definition days (y m d : Z) : Z :=
  let y := if m <=? 2 then y - 1 else y in
  (y / 400) * days_per_era + era_day (y mod 400) m d - epoch_shift.

(** The calendar facts of one era, as a test on a day of the era: the
    date is a real date, [era_day] leads back to the day, and the civil
    year changes on 1 January (day 146037 of an era that starts in
    March). *)
Definition era_ok (doe : Z) : bool :=
  let '(yoe, m, d) := era_date doe in
  let y := if m <=? 2 then yoe + 1 else yoe in
  (0 <=? yoe) && (yoe <? 400) && (1 <=? m) && (m <=? 12)
  && (1 <=? d) && (d <=? daysIn m y)
  && (era_day yoe m d =? doe)
  && Bool.eqb (doe <? 146037) (y <? 400).

(** *** Decimal fields *)

Definition digit (n : Z) : ascii := ascii_of_nat (Z.to_nat (48 + n mod 10)).

Definition digitval (c : ascii) : option Z :=
  let n := Z.of_nat (nat_of_ascii c) in
  if (48 <=? n) && (n <=? 57) then Some (n - 48) else None.

(** Decimal digits of [n >= 0], most significant first, in front of [acc]. *)
Fixpoint decimal (fuel : nat) (n : Z) (acc : string) : string :=
  match fuel with
  | O => acc
  | S fuel =>
      let acc := String (digit n) acc in
      if n <? 10 then acc else decimal fuel (n / 10) acc
  end.

Definition pad2 (n : Z) : string :=
  String (digit (n / 10)) (String (digit n) EmptyString).

Definition pad4 (n : Z) : string :=
  String (digit (n / 1000)) (String (digit (n / 100))
    (String (digit (n / 10)) (String (digit n) EmptyString))).

(** The year as [appendInt] writes it with width 4: a sign for a negative
    year, and at least four digits. *)
Definition year_field (y : Z) : string :=
  if y <? 0 then String "-" (if -y <? 10000 then pad4 (-y) else decimal 20 (-y) EmptyString)
  else if y <? 10000 then pad4 y
  else decimal 20 y EmptyString.

(** *** [t.Format(time.RFC3339)] for a UTC time

    Layout "2006-01-02T15:04:05Z07:00": whole seconds, and the zone of a
    UTC time is the letter Z. *)
Definition Format (t : Time) : string :=
  let sec := t / Second in
  let '(y, m, d) := civil (sec / 86400) in
  let r := sec mod 86400 in
  year_field y ++ "-" ++ pad2 m ++ "-" ++ pad2 d ++ "T" ++
  pad2 (r / 3600) ++ ":" ++ pad2 (r / 60 mod 60) ++ ":" ++ pad2 (r mod 60) ++ "Z".

(** *** [time.Parse(time.RFC3339, s)]

    The accepted texts are [YYYY-MM-DDThh:mm:ss], an optional fraction of
    a second, and a zone that is either the letter Z or a signed [hh:mm]
    offset.  As in the time package the hour may have one digit, a fraction
    counts to nine digits, and an offset may go up to 24 hours and 60
    minutes.  The result is the instant denoted, [None] standing for the
    parse error. *)

(** Exactly [k] decimal digits. *)
Fixpoint number (k : nat) (s : string) (acc : Z) : option (Z * string) :=
  match k with
  | O => Some (acc, s)
  | S k =>
      match s with
      | String c s => v ← digitval c; number k s (10 * acc + v)
      | EmptyString => None
      end
  end.

Definition lit (c : ascii) (s : string) : option string :=
  match s with
  | String c' s => if Ascii.eqb c c' then Some s else None
  | EmptyString => None
  end.

(** The hour field of the layout is "15": one or two digits are taken. *)
Definition hour_field (s : string) : option (Z * string) :=
  match s with
  | String a s =>
      va ← digitval a;
      match s with
      | String b s' =>
          match digitval b with
          | Some vb => Some (10 * va + vb, s')
          | None => Some (va, s)
          end
      | EmptyString => Some (va, s)
      end
  | EmptyString => None
  end.

(** Digits of a fraction: all of them are consumed, the first [k] count. *)
Fixpoint fraction_digits (s : string) (k : nat) (acc : Z) : Z * string :=
  match s with
  | String c s' =>
      match digitval c with
      | Some v =>
          match k with
          | O => fraction_digits s' O acc
          | S k => fraction_digits s' k (10 * acc + v)
          end
      | None => (acc * 10 ^ Z.of_nat k, s)
      end
  | EmptyString => (acc * 10 ^ Z.of_nat k, s)
  end.

(** Nanoseconds of an optional fraction ".d+" after the seconds. *)
Definition fraction (s : string) : Z * string :=
  match s with
  | String p (String c s') =>
      if (Ascii.eqb p "." || Ascii.eqb p ",") && bool_decide (is_Some (digitval c))
      then fraction_digits (String c s') 9 0
      else (0, s)
  | _ => (0, s)
  end.

(** Zone "Z07:00": seconds east of UTC. *)
Definition zone (s : string) : option (Z * string) :=
  match s with
  | String sg rest =>
      if Ascii.eqb sg "Z" then Some (0, rest)
      else
        sign ← (if Ascii.eqb sg "+" then Some 1
                else if Ascii.eqb sg "-" then Some (-1) else None);
        '(hh, rest) ← number 2 rest 0;
        rest ← lit ":" rest;
        '(mm, rest) ← number 2 rest 0;
        if (hh <=? 24) && (mm <=? 60)
        then Some (sign * (hh * 3600 + mm * 60), rest) else None
  | EmptyString => None
  end.

Definition Parse (s : string) : option Time :=
  '(y, s) ← number 4 s 0;
  s ← lit "-" s;
  '(m, s) ← number 2 s 0;
  s ← lit "-" s;
  '(d, s) ← number 2 s 0;
  s ← lit "T" s;
  '(h, s) ← hour_field s;
  s ← lit ":" s;
  '(mi, s) ← number 2 s 0;
  s ← lit ":" s;
  '(sc, s) ← number 2 s 0;
  let '(ns, s) := fraction s in
  '(off, s) ← zone s;
  if String.eqb s EmptyString
     && (1 <=? m) && (m <=? 12) && (1 <=? d) && (d <=? daysIn m y)
     && (h <? 24) && (mi <? 60) && (sc <? 60)
  then Some ((days y m d * 86400 + h * 3600 + mi * 60 + sc - off) * Second + ns)
  else None.

(** Truncation of an instant to the whole second (towards the past). *)
Definition truncate_second (t : Time) : Time := t / Second * Second.

(** The instants whose year has four digits: 0000-01-01T00:00:00Z up to,
    not including, 10000-01-01T00:00:00Z. *)
Definition min_instant : Time := -62167219200 * Second.
Definition max_instant : Time := 253402300800 * Second.
Definition four_digit_year (t : Time) : Prop := min_instant <= t < max_instant.

End Time.

Import Time.

Local Open Scope string_scope.

(** ** Bootstrap token grammar ([bootstrapapi], [bootstraputil]) *)

(** Constants of k8s.io/cluster-bootstrap/token/api, with the values that
    package declares.  [BootstrapTokenPattern] is a regular expression
    anchored at both ends. *)
Definition BootstrapTokenPattern : string := "\A([a-z0-9]{6})\.([a-z0-9]{16})\z".

Definition BootstrapTokenIDBytes : nat := 6.
Definition BootstrapTokenSecretBytes : nat := 16.

(** The character class [a-z0-9]. *)
Definition token_char (c : ascii) : bool :=
  let n := nat_of_ascii c in
  ((97 <=? n) && (n <=? 122) || (48 <=? n) && (n <=? 57))%nat.

Definition token_chars (s : string) : bool :=
  forallb token_char (list_ascii_of_string s).

(** [BootstrapTokenRegexp.FindStringSubmatch], for the regular expression
    compiled from [BootstrapTokenPattern]: the whole match followed by the
    two groups, or the nil slice when the text does not match. *)
Definition FindStringSubmatch (s : string) : list string :=
  let id := substring 0 BootstrapTokenIDBytes s in
  let secret := substring (S BootstrapTokenIDBytes) BootstrapTokenSecretBytes s in
  if (String.length s =? BootstrapTokenIDBytes + 1 + BootstrapTokenSecretBytes)%nat
     && token_chars id
     && match String.get BootstrapTokenIDBytes s with
        | Some c => Ascii.eqb c "."
        | None => false
        end
     && token_chars secret
  then [s; id; secret]
  else [].

(** The grammar in the words of the specification: [<id>.<secret>] with an
    id of 6 and a secret of 16 characters, all lowercase letters or digits. *)
Definition TokenGrammar (text id secret : string) : Prop :=
  text = id ++ "." ++ secret
  ∧ String.length id = 6%nat ∧ String.length secret = 16%nat
  ∧ (∀ c, In c (list_ascii_of_string id) → token_char c = true)
  ∧ (∀ c, In c (list_ascii_of_string secret) → token_char c = true).

Definition WellFormedToken (text : string) : Prop :=
  ∃ id secret, TokenGrammar text id secret.

Definition BootstrapTokenSecretPrefix : string := "bootstrap-token-".

Definition BootstrapTokenSecretName (tokenID : string) : string :=
  BootstrapTokenSecretPrefix ++ tokenID.

Definition SecretTypeBootstrapToken : string := "bootstrap.kubernetes.io/token".
Definition BootstrapTokenIDKey : string := "token-id".
Definition BootstrapTokenSecretKey : string := "token-secret".
Definition BootstrapTokenExpirationKey : string := "expiration".
Definition BootstrapTokenDescriptionKey : string := "description".
Definition BootstrapTokenExtraGroupsKey : string := "auth-extra-groups".
Definition BootstrapTokenUsageAuthentication : string := "usage-bootstrap-authentication".
Definition BootstrapTokenUsageSigningKey : string := "usage-bootstrap-signing".

(** [metav1.NamespaceSystem] *)
Definition NamespaceSystem : string := "kube-system".

(** ** Objects and errors *)

(** [v1.Secret], with the fields token.go touches.  [Data] is a Go map and
    may be nil ([None]), which differs from the empty map. *)
Record Secret := {
  Name : string;
  Namespace : string;
  SecretType : string;
  Data : option (gmap string string)
}.

(** [&v1.Secret{}] *)
Definition emptySecret : Secret :=
  {| Name := ""; Namespace := ""; SecretType := ""; Data := None |}.

(** [client.ObjectKey] *)
Record ObjectKey := { KeyNamespace : string; KeyName : string }.

#[global] Instance ObjectKey_eq_dec : EqDecision ObjectKey.
Proof. solve_decision. Defined.

#[global] Program Instance ObjectKey_countable : Countable ObjectKey :=
  inj_countable' (λ k, (KeyNamespace k, KeyName k))
                 (λ p, {| KeyNamespace := p.1; KeyName := p.2 |}) _.
Next Obligation. by intros []. Qed.

Definition keyOf (s : Secret) : ObjectKey :=
  {| KeyNamespace := Namespace s; KeyName := Name s |}.

(** Go errors, by origin.  [ErrPanic] is not a returned error: it marks a
    run-time panic (nil map write, nil dereference). *)
Inductive error :=
| ErrTokenForm (token : string)
    (* "the bootstrap token %q was not of the form %q" *)
| ErrInvalidSecret (secretName : string)
    (* "Invalid bootstrap secret %q, remove the token ..." *)
| ErrWrap (cause : error) (msg : string)      (* errors.Wrap *)
| ErrTimeParse (value : string)               (* *time.ParseError *)
| ErrAlreadyExists (key : ObjectKey)          (* store: create on a taken key *)
| ErrNotFound (key : ObjectKey)               (* store: no object under key *)
| ErrOther (msg : string)                     (* any other foreign failure *)
| ErrPanic (msg : string).

(** The error classes of the specification. *)
Definition MalformedTokenError (e : error) : Prop := ∃ t, e = ErrTokenForm t.
Definition CorruptRecordError (e : error) : Prop :=
  (∃ n, e = ErrInvalidSecret n) ∨ (∃ v, e = ErrTimeParse v).
Definition ConflictError (e : error) : Prop := ∃ k, e = ErrAlreadyExists k.
Definition NotFoundError (e : error) : Prop := ∃ k, e = ErrNotFound k.

(** ** The store behind [client.Client] *)

(** The three methods token.go calls.  Each takes the client state and
    returns the state after the call; [Get] fills in the object passed to
    it, as the Go method does through its pointer argument. *)
Class Client (C : Type) := {
  Create : C → Secret → option error * C;
  Get : C → ObjectKey → Secret → (Secret * option error) * C;
  Update : C → Secret → option error * C
}.

(** What a store keeps under a key; the key itself carries the name. *)
Record StoredSecret := {
  storedType : string;
  storedData : option (gmap string string)
}.

Inductive Call :=
| CreateCall (key : ObjectKey)
| GetCall (key : ObjectKey)
| UpdateCall (key : ObjectKey).

(** An in-memory store that also records the calls made to it, oldest
    first. *)
Record MemStore := {
  objects : gmap ObjectKey StoredSecret;
  calls : list Call
}.

Definition stored (s : Secret) : StoredSecret :=
  {| storedType := SecretType s; storedData := Data s |}.

Definition loaded (k : ObjectKey) (o : StoredSecret) : Secret :=
  {| Name := KeyName k; Namespace := KeyNamespace k;
     SecretType := storedType o; Data := storedData o |}.

(** The store after a call has been noted in its log. *)
Definition noted (call : Call) (c : MemStore) : MemStore :=
  {| objects := objects c; calls := (calls c ++ [call])%list |}.

(** Modelled from the spec: [Create] of the Secret Store (section 6), which
    fails distinctly when the key already exists; nothing is written then. *)
Definition memCreate (c : MemStore) (obj : Secret) : option error * MemStore :=
  let k := keyOf obj in
  let c := noted (CreateCall k) c in
  match objects c !! k with
  | Some _ => (Some (ErrAlreadyExists k), c)
  | None => (None, {| objects := <[k := stored obj]> (objects c); calls := calls c |})
  end.

(** Modelled from the spec: [Get] of the Secret Store (section 6), which
    fails distinctly when the key is absent; the object passed in is then
    left as it was. *)
Definition memGet (c : MemStore) (k : ObjectKey) (obj : Secret)
  : (Secret * option error) * MemStore :=
  let c := noted (GetCall k) c in
  match objects c !! k with
  | Some o => ((loaded k o, None), c)
  | None => ((obj, Some (ErrNotFound k)), c)
  end.

(** Modelled from the spec: [Update] of the Secret Store (section 6), which
    fails distinctly when the key is absent (no implicit create). *)
Definition memUpdate (c : MemStore) (obj : Secret) : option error * MemStore :=
  let k := keyOf obj in
  let c := noted (UpdateCall k) c in
  match objects c !! k with
  | Some _ => (None, {| objects := <[k := stored obj]> (objects c); calls := calls c |})
  | None => (Some (ErrNotFound k), c)
  end.

(** Modelled from the spec: the Secret Store collaborator of section 6.
    [Create] fails distinctly when the key already exists, [Get] and
    [Update] fail distinctly when the key is absent (no implicit create);
    a failed call leaves the stored objects as they were. *)
#[global] Instance MemStore_Client : Client MemStore := {
  Create := memCreate;
  Get := memGet;
  Update := memUpdate
}.

(** ** Token generation ([bootstraputil.GenerateBootstrapToken]) *)

(** The random source: what the n-th call of [GenerateBootstrapToken]
    returns, a token text and an error. *)
Definition Entropy := nat → string * option error.

(** ** token.go *)

(** DefaultTokenTTL is the amount of time a bootstrap token (and therefore a
    KubeadmConfig) will be valid.  It is a package variable; token.go gives
    it this value and does not assign it again. *)
Definition DefaultTokenTTL : Duration := 15 * Minute.

Section Controllers.

Context {C : Type} `{Client C}.

(** createToken attempts to create a token with the given ID.  The state
    is the number of tokens drawn so far and the client; [now] is the
    reading of [time.Now()]. *)
Definition createToken (rand : Entropy) (now : Time) (st : nat * C)
  : (string * option error) * (nat * C) :=
  let '(n, c) := st in
  let '(token, err) := rand n in
  let n := S n in
  match err with
  | Some e => (("", Some (ErrWrap e "unable to generate bootstrap token")), (n, c))
  | None =>
      let substrs := FindStringSubmatch token in
      if negb (length substrs =? 3)%nat
      then (("", Some (ErrTokenForm token)), (n, c))
      else
        let tokenID := nth 1 substrs "" in
        let tokenSecret := nth 2 substrs "" in
        let secretName := BootstrapTokenSecretName tokenID in
        let secretToken := {|
          Name := secretName;
          Namespace := NamespaceSystem;
          SecretType := SecretTypeBootstrapToken;
          Data := Some (list_to_map [
            (BootstrapTokenIDKey, tokenID);
            (BootstrapTokenSecretKey, tokenSecret);
            (BootstrapTokenExpirationKey, Format (Add (UTC now) DefaultTokenTTL));
            (BootstrapTokenUsageSigningKey, "true");
            (BootstrapTokenUsageAuthentication, "true");
            (BootstrapTokenExtraGroupsKey, "system:bootstrappers:kubeadm:default-node-token");
            (BootstrapTokenDescriptionKey, "token generated by cluster-api-bootstrap-provider-kubeadm")
          ])
        |} in
        let '(err, c) := Create c secretToken in
        match err with
        | Some e => (("", Some e), (n, c))
        | None => ((token, None), (n, c))
        end
  end.

(** getToken fetches the token Secret and returns an error if it is
    invalid. *)
Definition getToken (c : C) (token : string) : (option Secret * option error) * C :=
  let substrs := FindStringSubmatch token in
  if negb (length substrs =? 3)%nat
  then ((None, Some (ErrTokenForm token)), c)
  else
    let tokenID := nth 1 substrs "" in
    let secretName := BootstrapTokenSecretName tokenID in
    let secret := emptySecret in
    let '((secret, err), c) :=
      Get c {| KeyName := secretName; KeyNamespace := NamespaceSystem |} secret in
    match err with
    | Some e => ((Some secret, Some e), c)
    | None =>
        match Data secret with
        | None => ((None, Some (ErrInvalidSecret secretName)), c)
        | Some _ => ((Some secret, None), c)
        end
    end.

(** refreshToken extends the TTL for an existing token. *)
Definition refreshToken (now : Time) (c : C) (token : string) : option error * C :=
  let '((secret, err), c) := getToken c token in
  match err with
  | Some e => (Some e, c)
  | None =>
      match secret with
      | None => (Some (ErrPanic "nil pointer dereference"), c)
      | Some secret =>
          match Data secret with
          | None => (Some (ErrPanic "assignment to entry in nil map"), c)
          | Some data =>
              let secret := {|
                Name := Name secret;
                Namespace := Namespace secret;
                SecretType := SecretType secret;
                Data := Some (<[BootstrapTokenExpirationKey :=
                                 Format (Add (UTC now) DefaultTokenTTL)]> data)
              |} in
              Update c secret
          end
      end
  end.

(** The bytes under a key of [Data] as a string; a missing key or a nil
    map reads as the empty string. *)
Definition field (secret : Secret) (key : string) : string :=
  default "" (Data secret ≫= (λ data : gmap string string, data !! key)).

(** shouldRotate returns true if an existing token is past half of its TTL
    and should to be rotated. *)
Definition shouldRotate (now : Time) (c : C) (token : string) : (bool * option error) * C :=
  let '((secret, err), c) := getToken c token in
  match err with
  | Some e => ((false, Some e), c)
  | None =>
      match secret with
      | None => ((false, Some (ErrPanic "nil pointer dereference")), c)
      | Some secret =>
          let value := field secret BootstrapTokenExpirationKey in
          match Parse value with
          | None => ((false, Some (ErrTimeParse value)), c)
          | Some expiration =>
              ((Before expiration (Add (UTC now) (Z.quot DefaultTokenTTL 2)), None), c)
          end
      end
  end.

End Controllers.

(** ** Reading a store *)

(** The key under which the record of a token id is kept. *)
Definition tokenKey (tokenID : string) : ObjectKey :=
  {| KeyNamespace := NamespaceSystem; KeyName := BootstrapTokenSecretName tokenID |}.

(** The bytes of a field of the record kept for a token id. *)
Definition storedField (c : MemStore) (tokenID key : string) : option string :=
  o ← objects c !! tokenKey tokenID;
  data ← storedData o;
  (data : gmap string string) !! key.

(** The data [createToken] writes for an id and a secret at time [now]. *)
Definition issuedData (tokenID tokenSecret : string) (now : Time) : gmap string string :=
  list_to_map [
    (BootstrapTokenIDKey, tokenID);
    (BootstrapTokenSecretKey, tokenSecret);
    (BootstrapTokenExpirationKey, Format (Add (UTC now) DefaultTokenTTL));
    (BootstrapTokenUsageSigningKey, "true");
    (BootstrapTokenUsageAuthentication, "true");
    (BootstrapTokenExtraGroupsKey, "system:bootstrappers:kubeadm:default-node-token");
    (BootstrapTokenDescriptionKey, "token generated by cluster-api-bootstrap-provider-kubeadm")
  ].

(** A record after [refreshToken] has set its expiration at time [now]. *)
Definition refreshed (o : StoredSecret) (data : gmap string string) (now : Time)
  : StoredSecret :=
  {| storedType := storedType o;
     storedData := Some (<[BootstrapTokenExpirationKey :=
                            Format (Add (UTC now) DefaultTokenTTL)]> data) |}.

(** The expiration of the record kept for a token id, as an instant. *)
Definition expiresAt (c : MemStore) (tokenID : string) : option Time :=
  storedField c tokenID BootstrapTokenExpirationKey ≫= Parse.

(** ** Sample inputs *)

Definition emptyStore : MemStore := {| objects := ∅; calls := [] |}.

Definition sampleToken : string := "abcdef.0123456789abcdef".
Definition sampleID : string := "abcdef".
Definition sampleSecret : string := "0123456789abcdef".

(** A random source whose first draw is well formed. *)
Definition sampleDraws : Entropy := λ _, (sampleToken, None).

(** A random source whose first draw is not of the form [<id>.<secret>]
    and whose later draws are. *)
Definition badFirstDraw : Entropy :=
  λ n, match n with
       | O => ("abcdef-0123456789abcdef", None)
       | S _ => (sampleToken, None)
       end.

(** The store after [createToken] at instant 0 on the empty store. *)
Definition issuedStore : MemStore := (createToken sampleDraws 0 (O, emptyStore)).2.2.

(** A store whose record for the sample id has data, but no expiration. *)
Definition noExpirationStore : MemStore :=
  {| objects := {[ tokenKey sampleID :=
                     {| storedType := SecretTypeBootstrapToken;
                        storedData := Some {[ BootstrapTokenIDKey := sampleID ]} |} ]};
     calls := [] |}.

(** A store whose record for the sample id has no data at all. *)
Definition noDataStore : MemStore :=
  {| objects := {[ tokenKey sampleID :=
                     {| storedType := SecretTypeBootstrapToken;
                        storedData := None |} ]};
     calls := [] |}.

(** ** Stores built by the controllers *)

(** The stores reached from the empty store by calls of the four functions
    of token.go, at any clock readings, with any random source and on any
    token texts. *)
Inductive reachable : MemStore → Prop :=
| reach_empty : reachable emptyStore
| reach_createToken rand now n c :
    reachable c → reachable (createToken rand now (n, c)).2.2
| reach_getToken c token :
    reachable c → reachable (getToken c token).2
| reach_refreshToken now c token :
    reachable c → reachable (refreshToken now c token).2
| reach_shouldRotate now c token :
    reachable c → reachable (shouldRotate now c token).2.

(** A record as [createToken] writes it, under the key of its id. *)
Definition issuedRecord (k : ObjectKey) (o : StoredSecret) : Prop :=
  ∃ token id secret now,
    TokenGrammar token id secret
    ∧ k = tokenKey id
    ∧ o = {| storedType := SecretTypeBootstrapToken;
             storedData := Some (issuedData id secret now) |}.

(** A token with the sample id and another secret, and a token with
    another id. *)
Definition twinToken : string := "abcdef.fedcba9876543210".
Definition otherToken : string := "ghijkl.0123456789abcdef".

(** * Properties *)

(** ** The calendar and the RFC 3339 round trip *)

Local Open Scope Z_scope.

Section TimeFacts.

(** Year of era: the year found is a year of the era, the day falls
    inside it, a 366th day only exists before a leap year starts, and the
    era's last civil year starts on day 146037. *)
Lemma era_year_facts doe :
  0 <= doe < 146097 →
  let yoe := (doe - doe / 1460 + doe / 36524 - doe / 146096) / 365 in
  let doy := doe - (365 * yoe + yoe / 4 - yoe / 100) in
  0 <= yoe < 400 ∧ 0 <= doy <= 365
  ∧ (doy = 365 →
     (yoe + 1) mod 4 = 0 ∧ ((yoe + 1) mod 100 ≠ 0 ∨ (yoe + 1) mod 400 = 0))
  ∧ (doe < 146037 ↔ (yoe < 399 ∨ doy < 306)).
Proof.
  intros Hdoe yoe doy. subst doy yoe.
  Z.div_mod_to_equations. lia.
Qed.

(** Month and day inside a year that starts on 1 March. *)
Lemma era_month_facts doy :
  0 <= doy <= 365 →
  let mp := (5 * doy + 2) / 153 in
  let d := doy - (153 * mp + 2) / 5 + 1 in
  0 <= mp <= 11 ∧ 1 <= d <= 31
  ∧ (mp = 11 → d <= 29 ∧ (d = 29 → doy = 365))
  ∧ (mp = 1 ∨ mp = 3 ∨ mp = 6 ∨ mp = 8 → d <= 30)
  ∧ (mp < 10 ↔ doy < 306).
Proof.
  intros Hdoy mp d. subst d mp.
  Z.div_mod_to_equations. lia.
Qed.

Lemma era_ok_all doe : 0 <= doe < days_per_era → era_ok doe = true.
Proof.
  unfold days_per_era. intros Hdoe.
  pose proof (era_year_facts doe Hdoe) as Hyear.
  unfold era_ok, era_date.
  set (yoe := (doe - doe / 1460 + doe / 36524 - doe / 146096) / 365) in *.
  set (doy := doe - (365 * yoe + yoe / 4 - yoe / 100)) in *.
  cbv zeta in Hyear. destruct Hyear as (Hyoe & Hdoy & Hleap & Hjan).
  pose proof (era_month_facts doy Hdoy) as Hmonth.
  set (mp := (5 * doy + 2) / 153) in *.
  set (d := doy - (153 * mp + 2) / 5 + 1) in *.
  cbv zeta in Hmonth. destruct Hmonth as (Hmp & Hd & Hfeb & H30 & Hmar).
  assert (Hinv : ∀ m, (if 2 <? m then m - 3 else m + 9) = mp → era_day yoe m d = doe)
    by (intros m Hm; unfold era_day; rewrite Hm; subst d doy; lia).
  destruct (Z.ltb_spec mp 10) as [Hlt|Hge].
  - (* March to December *)
    assert (Hm : (mp + 3 <=? 2) = false) by lia. rewrite Hm.
    rewrite (Hinv (mp + 3)) by (destruct (Z.ltb_spec 2 (mp + 3)); lia).
    assert (Hdays : d <= daysIn (mp + 3) yoe).
    { unfold daysIn.
      destruct (Z.eqb_spec (mp + 3) 2); [lia|].
      destruct (Z.eqb_spec (mp + 3) 4), (Z.eqb_spec (mp + 3) 6),
        (Z.eqb_spec (mp + 3) 9), (Z.eqb_spec (mp + 3) 11); cbn [orb]; lia. }
    repeat (apply andb_true_iff; split); lia.
  - (* January and February, of the next civil year *)
    assert (Hm : (mp - 9 <=? 2) = true) by lia. rewrite Hm.
    rewrite (Hinv (mp - 9)) by (destruct (Z.ltb_spec 2 (mp - 9)); lia).
    assert (Hdays : d <= daysIn (mp - 9) (yoe + 1)).
    { unfold daysIn.
      destruct (Z.eqb_spec (mp - 9) 2) as [Hfebr|Hjanu].
      - assert (Hmp11 : mp = 11) by lia. destruct (Hfeb Hmp11) as [H29 Hlast].
        destruct (isLeap (yoe + 1)) eqn:Hl; [lia|].
        destruct (Z.eq_dec d 29) as [Hd29|]; [|lia].
        destruct (Hleap (Hlast Hd29)) as [H4 H100].
        unfold isLeap in Hl. rewrite H4 in Hl. cbn [Z.eqb andb] in Hl.
        destruct (Z.eqb_spec ((yoe + 1) mod 100) 0), (Z.eqb_spec ((yoe + 1) mod 400) 0);
          cbn in Hl; try discriminate; lia.
      - destruct (Z.eqb_spec (mp - 9) 4), (Z.eqb_spec (mp - 9) 6),
          (Z.eqb_spec (mp - 9) 9), (Z.eqb_spec (mp - 9) 11); cbn [orb]; lia. }
    repeat (apply andb_true_iff; split); lia.
Qed.

Lemma isLeap_era y k : isLeap (y + k * 400) = isLeap y.
Proof.
  unfold isLeap.
  replace ((y + k * 400) mod 4) with (y mod 4)
    by (replace (y + k * 400) with (y + (k * 100) * 4) by lia;
        now rewrite Z_mod_plus_full).
  replace ((y + k * 400) mod 100) with (y mod 100)
    by (replace (y + k * 400) with (y + (k * 4) * 100) by lia;
        now rewrite Z_mod_plus_full).
  now rewrite Z_mod_plus_full.
Qed.

Lemma daysIn_era m y k : daysIn m (y + k * 400) = daysIn m y.
Proof. unfold daysIn. now rewrite isLeap_era. Qed.

(** The civil date of a day is a date of the calendar, and [days] leads
    back to the day. *)
Lemma civil_spec z y m d :
  civil z = (y, m, d) →
  1 <= m <= 12 ∧ 1 <= d <= daysIn m y ∧ days y m d = z.
Proof.
  unfold civil.
  set (zz := z + epoch_shift).
  assert (Hdoe : 0 <= zz mod days_per_era < days_per_era)
    by (apply Z.mod_pos_bound; reflexivity).
  pose proof (era_ok_all _ Hdoe) as Hok. unfold era_ok in Hok.
  destruct (era_date (zz mod days_per_era)) as [[yoe m'] d'].
  intros Heq. injection Heq as Hy Hm Hd. subst m' d'.
  repeat (apply andb_true_iff in Hok as [Hok ?]).
  assert (Hyear : (if m <=? 2 then y - 1 else y) = yoe + zz / days_per_era * 400)
    by (destruct (m <=? 2); lia).
  assert (Hleap : daysIn m y = daysIn m (if m <=? 2 then yoe + 1 else yoe)).
  { rewrite <- (daysIn_era m (if m <=? 2 then yoe + 1 else yoe) (zz / days_per_era)).
    f_equal. destruct (m <=? 2); lia. }
  split; [lia|]. split; [rewrite Hleap; lia|].
  unfold days. rewrite Hyear.
  replace ((yoe + zz / days_per_era * 400) / 400) with (zz / days_per_era)
    by (apply (Z.div_unique _ _ _ yoe); lia).
  replace ((yoe + zz / days_per_era * 400) mod 400) with yoe
    by (apply (Z.mod_unique _ _ (zz / days_per_era)); lia).
  pose proof (Z.div_mod zz days_per_era ltac:(unfold days_per_era; lia)).
  subst zz. lia.
Qed.

(** Days of the years 0000 to 9999 have a year in that range. *)
Lemma civil_year z y m d :
  civil z = (y, m, d) → -719528 <= z < 2932897 → 0 <= y < 10000.
Proof.
  unfold civil.
  set (zz := z + epoch_shift).
  assert (Hdoe : 0 <= zz mod days_per_era < days_per_era)
    by (apply Z.mod_pos_bound; reflexivity).
  pose proof (era_ok_all _ Hdoe) as Hok. unfold era_ok in Hok.
  destruct (era_date (zz mod days_per_era)) as [[yoe m'] d'].
  intros Heq Hz. injection Heq as Hy Hm Hd. subst m' d'.
  repeat (apply andb_true_iff in Hok as [Hok ?]).
  pose proof (Z.div_mod zz days_per_era ltac:(unfold days_per_era; lia)) as Hdm.
  assert (Hzz : -60 <= zz < 25 * days_per_era - 60)
    by (subst zz; unfold epoch_shift, days_per_era; lia).
  unfold days_per_era in *.
  match goal with Hb : Bool.eqb _ _ = true |- _ => apply Bool.eqb_prop in Hb; rename Hb into Hjan end.
  assert (Hera : -1 <= zz / 146097 <= 24) by lia.
  destruct (zz mod 146097 <? 146037) eqn:Hlow; symmetry in Hjan.
  - assert (0 <= zz / 146097) by lia. destruct (m <=? 2); lia.
  - assert (zz / 146097 <= 23) by lia. destruct (m <=? 2); lia.
Qed.

Lemma digitval_digit n : digitval (digit n) = Some (n mod 10).
Proof.
  unfold digit.
  assert (Hr : 0 <= n mod 10 < 10) by (apply Z.mod_pos_bound; lia).
  destruct (n mod 10) as [|p|p]; [reflexivity| |lia].
  do 4 (destruct p as [p|p|]; try lia; try reflexivity).
Qed.

Lemma number_pad2 n rest :
  0 <= n < 100 → number 2 (pad2 n ++ rest)%string 0 = Some (n, rest).
Proof.
  intros Hn. unfold pad2. cbv [String.append]. cbn [number].
  rewrite !digitval_digit. cbn [mbind option_bind].
  do 2 f_equal. Z.div_mod_to_equations. lia.
Qed.

Lemma number_pad4 n rest :
  0 <= n < 10000 → number 4 (pad4 n ++ rest)%string 0 = Some (n, rest).
Proof.
  intros Hn. unfold pad4. cbv [String.append]. cbn [number].
  rewrite !digitval_digit. cbn [mbind option_bind].
  do 2 f_equal. Z.div_mod_to_equations. lia.
Qed.

Lemma hour_field_pad2 n rest :
  0 <= n < 100 → hour_field (pad2 n ++ rest)%string = Some (n, rest).
Proof.
  intros Hn. unfold pad2. cbv [String.append]. cbn [hour_field].
  rewrite !digitval_digit. cbn [mbind option_bind].
  do 2 f_equal. Z.div_mod_to_equations. lia.
Qed.

Lemma year_field_pad4 y : 0 <= y < 10000 → year_field y = pad4 y.
Proof.
  intros Hy. unfold year_field.
  destruct (Z.ltb_spec y 0); [lia|]. destruct (Z.ltb_spec y 10000); [reflexivity|lia].
Qed.

Lemma append_String a s r : (String a s ++ r)%string = String a (s ++ r)%string.
Proof. reflexivity. Qed.

Lemma append_Empty r : (EmptyString ++ r)%string = r.
Proof. reflexivity. Qed.

(** After a field has been read: pass the separator that follows it. *)
Ltac next_field :=
  cbn [mbind option_bind];
  rewrite ?append_String, ?append_Empty;
  cbn [lit Ascii.eqb Bool.eqb mbind option_bind].

(** Reading back the rendering of an instant whose year has four digits
    gives the instant, cut to the whole second. *)
Lemma Parse_Format t :
  four_digit_year t → Parse (Format t) = Some (truncate_second t).
Proof.
  unfold four_digit_year, min_instant, max_instant, truncate_second, Format.
  intros Ht.
  set (sec := t / Second).
  assert (Hsec : -62167219200 <= sec < 253402300800)
    by (subst sec; unfold Second in *; Z.div_mod_to_equations; lia).
  destruct (civil (sec / 86400)) as [[y m] d] eqn:Hcivil.
  destruct (civil_spec _ _ _ _ Hcivil) as (Hm & Hd & Hdays).
  assert (Hy : 0 <= y < 10000)
    by (apply (civil_year _ _ _ _ Hcivil); Z.div_mod_to_equations; lia).
  assert (Hd31 : d <= 31).
  { destruct Hd as [_ Hd]. revert Hd. unfold daysIn.
    repeat match goal with |- context [if ?b then _ else _] => destruct b end; lia. }
  set (r := sec mod 86400).
  assert (Hr : 0 <= r < 86400) by (apply Z.mod_pos_bound; lia).
  assert (Hh : 0 <= r / 3600 < 24) by (Z.div_mod_to_equations; lia).
  assert (Hmi : 0 <= r / 60 mod 60 < 60) by (apply Z.mod_pos_bound; lia).
  assert (Hs : 0 <= r mod 60 < 60) by (apply Z.mod_pos_bound; lia).
  rewrite year_field_pad4 by exact Hy.
  unfold Parse.
  rewrite number_pad4 by exact Hy. next_field.
  rewrite number_pad2 by lia. next_field.
  rewrite number_pad2 by lia. next_field.
  rewrite hour_field_pad2 by lia. next_field.
  rewrite number_pad2 by lia. next_field.
  rewrite number_pad2 by lia. next_field.
  cbn [fraction zone Ascii.eqb Bool.eqb].
  cbn [mbind option_bind String.eqb andb].
  assert (Hchk : (1 <=? m) && (m <=? 12) && (1 <=? d) && (d <=? daysIn m y)
                 && (r / 3600 <? 24) && (r / 60 mod 60 <? 60) && (r mod 60 <? 60) = true)
    by (repeat (apply andb_true_iff; split); lia).
  rewrite Hchk. f_equal. rewrite Hdays.
  subst r. unfold Second. Z.div_mod_to_equations. lia.
Qed.

Lemma truncate_second_le t : truncate_second t <= t < truncate_second t + Second.
Proof. unfold truncate_second, Second. Z.div_mod_to_equations. lia. Qed.

Lemma truncate_second_mono t u : t <= u → truncate_second t <= truncate_second u.
Proof. unfold truncate_second, Second. intros. Z.div_mod_to_equations. lia. Qed.

Lemma truncate_second_step t u :
  t + Second <= u → truncate_second t < truncate_second u.
Proof. unfold truncate_second, Second. intros. Z.div_mod_to_equations. lia. Qed.

End TimeFacts.

(** ** The token grammar *)

Section GrammarFacts.

Lemma token_chars_forall s :
  token_chars s = true ↔ ∀ c, In c (list_ascii_of_string s) → token_char c = true.
Proof. unfold token_chars. apply forallb_forall. Qed.

(** The regular expression accepts exactly the grammar, and its groups
    are the id and the secret. *)
Lemma FindStringSubmatch_grammar s id secret :
  TokenGrammar s id secret → FindStringSubmatch s = [s; id; secret].
Proof.
  intros (-> & Hid & Hsecret & Hidc & Hsecretc).
  apply token_chars_forall in Hidc, Hsecretc.
  do 7 (destruct id as [|? id]; try discriminate).
  do 17 (destruct secret as [|? secret]; try discriminate).
  unfold FindStringSubmatch.
  cbv [String.append String.length substring String.get Nat.eqb Nat.add
       BootstrapTokenIDBytes BootstrapTokenSecretBytes Ascii.eqb Bool.eqb].
  rewrite Hidc, Hsecretc. reflexivity.
Qed.

Lemma FindStringSubmatch_cases s :
  FindStringSubmatch s = []
  ∨ ∃ id secret, FindStringSubmatch s = [s; id; secret] ∧ TokenGrammar s id secret.
Proof.
  unfold FindStringSubmatch.
  destruct (_ && _) eqn:Hmatch; [right|left; reflexivity].
  eexists _, _. split; [reflexivity|].
  repeat (apply andb_true_iff in Hmatch as [Hmatch ?]).
  apply Nat.eqb_eq in Hmatch.
  do 24 (destruct s as [|? s]; try discriminate).
  match goal with
  | Hdot : match String.get _ _ with _ => _ end = true |- _ =>
      cbv [String.get BootstrapTokenIDBytes] in Hdot;
      apply Ascii.eqb_eq in Hdot; subst
  end.
  unfold TokenGrammar. rewrite <- !token_chars_forall. repeat split; assumption.
Qed.

Lemma FindStringSubmatch_length s :
  length (FindStringSubmatch s) = 3%nat ↔ WellFormedToken s.
Proof.
  split.
  - destruct (FindStringSubmatch_cases s) as [->|(id & secret & _ & Hg)];
      [discriminate|]. intros _. now exists id, secret.
  - intros (id & secret & Hg). now rewrite (FindStringSubmatch_grammar _ _ _ Hg).
Qed.

Lemma FindStringSubmatch_malformed s :
  ¬ WellFormedToken s → FindStringSubmatch s = [].
Proof.
  intros Hbad. destruct (FindStringSubmatch_cases s) as [Hnil|(id & secret & _ & Hg)];
    [exact Hnil|]. destruct Hbad. now exists id, secret.
Qed.

(** The grammar fixes the id and the secret of a text. *)
Lemma TokenGrammar_inj s id secret id' secret' :
  TokenGrammar s id secret → TokenGrammar s id' secret' → id = id' ∧ secret = secret'.
Proof.
  intros Hg Hg'.
  apply FindStringSubmatch_grammar in Hg, Hg'. rewrite Hg in Hg'.
  now injection Hg'.
Qed.

End GrammarFacts.

(** ** The controllers over any client *)

Section ControllerFacts.

Context {C : Type} `{Client C}.

Lemma getToken_malformed (c : C) token :
  FindStringSubmatch token = [] →
  getToken c token = ((None, Some (ErrTokenForm token)), c).
Proof. intros Hnil. unfold getToken. now rewrite Hnil. Qed.

Lemma getToken_wellformed (c : C) token id secret :
  TokenGrammar token id secret →
  getToken c token =
    let '((s, err), c) := Get c (tokenKey id) emptySecret in
    match err with
    | Some e => ((Some s, Some e), c)
    | None =>
        match Data s with
        | None => ((None, Some (ErrInvalidSecret (BootstrapTokenSecretName id))), c)
        | Some _ => ((Some s, None), c)
        end
    end.
Proof.
  intros Hg. unfold getToken.
  now rewrite (FindStringSubmatch_grammar _ _ _ Hg).
Qed.

(** A secret returned without error is there and carries a data map. *)
Lemma getToken_ok (c c' : C) token s :
  getToken c token = ((s, None), c') → ∃ s' data, s = Some s' ∧ Data s' = Some data.
Proof.
  unfold getToken. destruct (negb _); [discriminate|].
  destruct (Get _ _ _) as [[s0 [e|]] c0]; [discriminate|].
  destruct (Data s0) as [data|] eqn:Hdata; [|discriminate].
  intros Heq. injection Heq as <- _. eauto.
Qed.

(** [refreshToken] stops at a failure of [getToken], in the state
    [getToken] left. *)
Lemma refreshToken_getToken_error now (c c' : C) token s e :
  getToken c token = ((s, Some e), c') → refreshToken now c token = (Some e, c').
Proof. intros Hget. unfold refreshToken. now rewrite Hget. Qed.

Lemma shouldRotate_getToken_error now (c c' : C) token s e :
  getToken c token = ((s, Some e), c') →
  shouldRotate now c token = ((false, Some e), c').
Proof. intros Hget. unfold shouldRotate. now rewrite Hget. Qed.

(** One token is drawn by every call of [createToken]. *)
Lemma createToken_draws rand now n (c : C) :
  (createToken rand now (n, c)).2.1 = S n.
Proof.
  unfold createToken. destruct (rand n) as [token [e|]]; [reflexivity|].
  destruct (negb _); [reflexivity|].
  destruct (Create _ _) as [[e|] c']; reflexivity.
Qed.

Lemma createToken_generator_error rand now n (c : C) token e :
  rand n = (token, Some e) →
  createToken rand now (n, c)
  = (("", Some (ErrWrap e "unable to generate bootstrap token")), (S n, c)).
Proof. intros Hdraw. unfold createToken. now rewrite Hdraw. Qed.

Lemma createToken_malformed rand now n (c : C) token :
  rand n = (token, None) → FindStringSubmatch token = [] →
  createToken rand now (n, c) = (("", Some (ErrTokenForm token)), (S n, c)).
Proof. intros Hdraw Hnil. unfold createToken. now rewrite Hdraw, Hnil. Qed.

Lemma createToken_wellformed rand now n (c : C) token id secret :
  rand n = (token, None) → TokenGrammar token id secret →
  createToken rand now (n, c) =
    let '(err, c) :=
      Create c {| Name := BootstrapTokenSecretName id;
                  Namespace := NamespaceSystem;
                  SecretType := SecretTypeBootstrapToken;
                  Data := Some (issuedData id secret now) |} in
    match err with
    | Some e => (("", Some e), (S n, c))
    | None => ((token, None), (S n, c))
    end.
Proof.
  intros Hdraw Hg. unfold createToken.
  now rewrite Hdraw, (FindStringSubmatch_grammar _ _ _ Hg).
Qed.

(** A token returned by [createToken] is the token drawn, and it is well
    formed. *)
Lemma createToken_ok rand now n (c : C) token st :
  createToken rand now (n, c) = ((token, None), st) →
  rand n = (token, None) ∧ ∃ id secret, TokenGrammar token id secret.
Proof.
  unfold createToken. destruct (rand n) as [drawn [e|]]; [discriminate|].
  destruct (FindStringSubmatch_cases drawn) as [->|(id & secret & -> & Hg)];
    [discriminate|].
  cbn [length Nat.eqb negb]. destruct (Create _ _) as [[e|] c']; [discriminate|].
  intros Heq. injection Heq as -> _. eauto.
Qed.

End ControllerFacts.

(** ** The controllers over the in-memory store *)

Section MemStoreFacts.

Implicit Types (c : MemStore) (token id secret : string) (now : Time).

Lemma getToken_mem c token id secret :
  TokenGrammar token id secret →
  getToken c token =
    match objects c !! tokenKey id with
    | None => ((Some emptySecret, Some (ErrNotFound (tokenKey id))),
               noted (GetCall (tokenKey id)) c)
    | Some o =>
        match storedData o with
        | None => ((None, Some (ErrInvalidSecret (BootstrapTokenSecretName id))),
                   noted (GetCall (tokenKey id)) c)
        | Some _ => ((Some (loaded (tokenKey id) o), None),
                     noted (GetCall (tokenKey id)) c)
        end
    end.
Proof.
  intros Hg. rewrite (getToken_wellformed _ _ _ _ Hg).
  cbn [Get MemStore_Client]. unfold memGet. cbn [noted objects].
  destruct (objects c !! tokenKey id) as [o|]; [|reflexivity].
  cbn [loaded Data]. destruct (storedData o); reflexivity.
Qed.

Lemma refreshToken_mem now c token id secret :
  TokenGrammar token id secret →
  refreshToken now c token =
    match objects c !! tokenKey id with
    | None => (Some (ErrNotFound (tokenKey id)), noted (GetCall (tokenKey id)) c)
    | Some o =>
        match storedData o with
        | None => (Some (ErrInvalidSecret (BootstrapTokenSecretName id)),
                   noted (GetCall (tokenKey id)) c)
        | Some data =>
            (None,
             {| objects := <[tokenKey id := refreshed o data now]> (objects c);
                calls := calls (noted (UpdateCall (tokenKey id))
                                  (noted (GetCall (tokenKey id)) c)) |})
        end
    end.
Proof.
  intros Hg. unfold refreshToken. rewrite (getToken_mem _ _ _ _ Hg).
  destruct (objects c !! tokenKey id) as [o|] eqn:Hobj; [|reflexivity].
  destruct (storedData o) as [data|] eqn:Hdata; [|reflexivity].
  cbn [Update MemStore_Client]. unfold memUpdate, keyOf.
  cbn [loaded Data Name Namespace SecretType noted objects calls].
  change {| KeyNamespace := KeyNamespace (tokenKey id);
            KeyName := KeyName (tokenKey id) |} with (tokenKey id).
  rewrite Hdata, Hobj. reflexivity.
Qed.

Lemma shouldRotate_mem now c token id secret :
  TokenGrammar token id secret →
  shouldRotate now c token =
    match objects c !! tokenKey id with
    | None => ((false, Some (ErrNotFound (tokenKey id))),
               noted (GetCall (tokenKey id)) c)
    | Some o =>
        match storedData o with
        | None => ((false, Some (ErrInvalidSecret (BootstrapTokenSecretName id))),
                   noted (GetCall (tokenKey id)) c)
        | Some data =>
            let value := default "" (data !! BootstrapTokenExpirationKey) in
            (match Parse value with
             | None => (false, Some (ErrTimeParse value))
             | Some expiration =>
                 (Before expiration (Add (UTC now) (Z.quot DefaultTokenTTL 2)), None)
             end, noted (GetCall (tokenKey id)) c)
        end
    end.
Proof.
  intros Hg. unfold shouldRotate. rewrite (getToken_mem _ _ _ _ Hg).
  destruct (objects c !! tokenKey id) as [o|] eqn:Hobj; [|reflexivity].
  destruct (storedData o) as [data|] eqn:Hdata; [|reflexivity].
  unfold field. cbn [loaded Data]. rewrite Hdata. cbn [mbind option_bind].
  cbv zeta. destruct (Parse _); reflexivity.
Qed.

Lemma createToken_mem rand now n c token id secret :
  rand n = (token, None) → TokenGrammar token id secret →
  createToken rand now (n, c) =
    match objects c !! tokenKey id with
    | Some _ => (("", Some (ErrAlreadyExists (tokenKey id))),
                 (S n, noted (CreateCall (tokenKey id)) c))
    | None =>
        ((token, None),
         (S n,
          {| objects :=
               <[tokenKey id := {| storedType := SecretTypeBootstrapToken;
                                   storedData := Some (issuedData id secret now) |}]>
                 (objects c);
             calls := calls (noted (CreateCall (tokenKey id)) c) |}))
    end.
Proof.
  intros Hdraw Hg. rewrite (createToken_wellformed _ _ _ _ _ _ _ Hdraw Hg).
  cbn [Create MemStore_Client]. unfold memCreate, keyOf.
  cbn [Name Namespace noted objects calls].
  change {| KeyNamespace := NamespaceSystem;
            KeyName := BootstrapTokenSecretName id |} with (tokenKey id).
  destruct (objects c !! tokenKey id); reflexivity.
Qed.

(** The seven fields written by [createToken]. *)
Lemma issuedData_fields id secret now :
  issuedData id secret now !! BootstrapTokenIDKey = Some id
  ∧ issuedData id secret now !! BootstrapTokenSecretKey = Some secret
  ∧ issuedData id secret now !! BootstrapTokenExpirationKey
    = Some (Format (Add (UTC now) DefaultTokenTTL))
  ∧ issuedData id secret now !! BootstrapTokenUsageSigningKey = Some "true"%string
  ∧ issuedData id secret now !! BootstrapTokenUsageAuthentication = Some "true"%string
  ∧ issuedData id secret now !! BootstrapTokenExtraGroupsKey
    = Some "system:bootstrappers:kubeadm:default-node-token"%string
  ∧ issuedData id secret now !! BootstrapTokenDescriptionKey
    = Some "token generated by cluster-api-bootstrap-provider-kubeadm"%string.
Proof.
  unfold issuedData. cbn [list_to_map foldr uncurry fst snd].
  repeat split;
    repeat (first [ apply lookup_insert_eq
                  | rewrite lookup_insert_ne by discriminate ]).
Qed.

(** The nil-map write and the nil dereference guarded against by
    [getToken] are never reached. *)
Lemma refreshToken_no_panic now c token msg :
  (refreshToken now c token).1 ≠ Some (ErrPanic msg).
Proof.
  destruct (FindStringSubmatch_cases token) as [Hnil|(id & secret & _ & Hg)].
  - now rewrite (refreshToken_getToken_error _ _ _ _ _ _ (getToken_malformed c _ Hnil)).
  - rewrite (refreshToken_mem _ _ _ _ _ Hg).
    destruct (objects c !! tokenKey id) as [o|]; [destruct (storedData o)|];
      discriminate.
Qed.

Lemma shouldRotate_no_panic now c token msg :
  (shouldRotate now c token).1.2 ≠ Some (ErrPanic msg).
Proof.
  destruct (FindStringSubmatch_cases token) as [Hnil|(id & secret & _ & Hg)].
  - now rewrite (shouldRotate_getToken_error _ _ _ _ _ _ (getToken_malformed c _ Hnil)).
  - rewrite (shouldRotate_mem _ _ _ _ _ Hg).
    destruct (objects c !! tokenKey id) as [o|]; [destruct (storedData o)|];
      try discriminate.
    cbv zeta. destruct (Parse _); discriminate.
Qed.

End MemStoreFacts.

(** ** What a successful call leaves in the store *)

Section Outcomes.

Implicit Types (c : MemStore) (token id secret : string) (now : Time).

Lemma TokenGrammar_check token id secret :
  FindStringSubmatch token = [token; id; secret] → TokenGrammar token id secret.
Proof.
  intros Hfind.
  destruct (FindStringSubmatch_cases token) as [Hnil|(id' & secret' & Hfind' & Hg)];
    [congruence|].
  rewrite Hfind in Hfind'. now injection Hfind' as <- <-.
Qed.

Lemma half_ttl : Z.quot DefaultTokenTTL 2 = DefaultTokenTTL / 2.
Proof. reflexivity. Qed.

Lemma half_ttl_seconds : DefaultTokenTTL / 2 = 450 * Second.
Proof. reflexivity. Qed.

Lemma createToken_stored rand now n c token st :
  createToken rand now (n, c) = ((token, None), st) →
  ∃ id secret,
    TokenGrammar token id secret
    ∧ rand n = (token, None)
    ∧ objects c !! tokenKey id = None
    ∧ st = (S n,
            {| objects :=
                 <[tokenKey id := {| storedType := SecretTypeBootstrapToken;
                                     storedData := Some (issuedData id secret now) |}]>
                   (objects c);
               calls := calls (noted (CreateCall (tokenKey id)) c) |}).
Proof.
  intros Hcreate.
  destruct (createToken_ok _ _ _ _ _ _ Hcreate) as (Hdraw & id & secret & Hg).
  exists id, secret. rewrite (createToken_mem _ _ _ _ _ _ _ Hdraw Hg) in Hcreate.
  destruct (objects c !! tokenKey id); [discriminate|].
  injection Hcreate as <-. auto.
Qed.

Lemma refreshToken_stored now c token c' :
  refreshToken now c token = (None, c') →
  ∃ id secret o data,
    TokenGrammar token id secret
    ∧ objects c !! tokenKey id = Some o
    ∧ storedData o = Some data
    ∧ c' = {| objects := <[tokenKey id := refreshed o data now]> (objects c);
              calls := calls (noted (UpdateCall (tokenKey id))
                                (noted (GetCall (tokenKey id)) c)) |}.
Proof.
  intros Hrefresh.
  destruct (FindStringSubmatch_cases token) as [Hnil|(id & secret & _ & Hg)].
  - rewrite (refreshToken_getToken_error _ _ _ _ _ _ (getToken_malformed c _ Hnil))
      in Hrefresh. discriminate.
  - exists id, secret. rewrite (refreshToken_mem _ _ _ _ _ Hg) in Hrefresh.
    destruct (objects c !! tokenKey id) as [o|]; [|discriminate].
    destruct (storedData o) as [data|] eqn:Hdata; [|discriminate].
    injection Hrefresh as <-. exists o, data. auto.
Qed.

Lemma createToken_storedField rand now n c token id secret st key :
  createToken rand now (n, c) = ((token, None), st) →
  TokenGrammar token id secret →
  storedField st.2 id key = issuedData id secret now !! key.
Proof.
  intros Hcreate Hg.
  destruct (createToken_stored _ _ _ _ _ _ Hcreate) as (id' & secret' & Hg' & _ & _ & ->).
  destruct (TokenGrammar_inj _ _ _ _ _ Hg Hg') as [<- <-].
  unfold storedField. cbn [snd objects]. rewrite lookup_insert_eq. reflexivity.
Qed.

Lemma refreshToken_storedField now c token id secret c' :
  refreshToken now c token = (None, c') →
  TokenGrammar token id secret →
  storedField c' id BootstrapTokenExpirationKey
  = Some (Format (Add (UTC now) DefaultTokenTTL)).
Proof.
  intros Hrefresh Hg.
  destruct (refreshToken_stored _ _ _ _ Hrefresh)
    as (id' & secret' & o & data & Hg' & _ & _ & ->).
  destruct (TokenGrammar_inj _ _ _ _ _ Hg Hg') as [<- <-].
  unfold storedField, refreshed. cbn [objects]. rewrite lookup_insert_eq.
  cbn [mbind option_bind storedData]. apply lookup_insert_eq.
Qed.

(** The answer of [shouldRotate] on a record with a readable expiration. *)
Lemma shouldRotate_expiresAt now c token id secret e :
  TokenGrammar token id secret →
  expiresAt c id = Some e →
  (shouldRotate now c token).1 = (bool_decide (e < now + DefaultTokenTTL / 2), None).
Proof.
  intros Hg. unfold expiresAt, storedField.
  rewrite (shouldRotate_mem _ _ _ _ _ Hg).
  destruct (objects c !! tokenKey id) as [o|]; [|discriminate].
  cbn [mbind option_bind]. destruct (storedData o) as [data|]; [|discriminate].
  cbn [mbind option_bind]. destruct (data !! BootstrapTokenExpirationKey) as [text|];
    [|discriminate].
  cbn [mbind option_bind from_option Datatypes.id]. cbv zeta. intros ->. cbn [fst].
  rewrite half_ttl. unfold Before, Add, UTC.
  f_equal. destruct (Z.ltb_spec e (now + DefaultTokenTTL / 2)).
  - now rewrite bool_decide_eq_true_2.
  - rewrite bool_decide_eq_false_2; [reflexivity|lia].
Qed.

(** A record whose expiration was written at [now0] is not due while less
    than half the TTL, minus the second lost in the rendering, has passed,
    and is due once more than half the TTL has passed. *)
Lemma shouldRotate_since now0 now c token id secret :
  TokenGrammar token id secret →
  four_digit_year (now0 + DefaultTokenTTL) →
  storedField c id BootstrapTokenExpirationKey
  = Some (Format (Add (UTC now0) DefaultTokenTTL)) →
  (now + Second <= now0 + DefaultTokenTTL / 2 →
   (shouldRotate now c token).1 = (false, None))
  ∧ (now0 + DefaultTokenTTL / 2 < now →
     (shouldRotate now c token).1 = (true, None)).
Proof.
  intros Hg Hrange Hfield.
  assert (He : expiresAt c id = Some (truncate_second (now0 + DefaultTokenTTL)))
    by (unfold expiresAt; rewrite Hfield; apply (Parse_Format _ Hrange)).
  rewrite (shouldRotate_expiresAt now _ _ _ _ _ Hg He).
  pose proof (truncate_second_le (now0 + DefaultTokenTTL)) as Htrunc.
  assert (Hhalf : DefaultTokenTTL = 2 * (DefaultTokenTTL / 2)) by reflexivity.
  split; intros Hnow.
  - rewrite bool_decide_eq_false_2; [reflexivity|lia].
  - rewrite bool_decide_eq_true_2; [reflexivity|lia].
Qed.

(** [getToken] only reads: the objects stay, and the log grows by at most
    one [Get]. *)
Lemma getToken_reads c token :
  objects (getToken c token).2 = objects c
  ∧ (calls (getToken c token).2 = calls c
     ∨ ∃ key, calls (getToken c token).2 = (calls c ++ [GetCall key])%list).
Proof.
  destruct (FindStringSubmatch_cases token) as [Hnil|(id & secret & _ & Hg)].
  - rewrite (getToken_malformed c _ Hnil). auto.
  - rewrite (getToken_mem _ _ _ _ Hg).
    destruct (objects c !! tokenKey id) as [o|]; [destruct (storedData o)|];
      (split; [reflexivity|right; eexists; reflexivity]).
Qed.

Lemma shouldRotate_reads now c token :
  objects (shouldRotate now c token).2 = objects c.
Proof.
  destruct (FindStringSubmatch_cases token) as [Hnil|(id & secret & _ & Hg)].
  - now rewrite (shouldRotate_getToken_error _ _ _ _ _ _ (getToken_malformed c _ Hnil)).
  - rewrite (shouldRotate_mem _ _ _ _ _ Hg).
    destruct (objects c !! tokenKey id) as [o|]; [destruct (storedData o)|];
      reflexivity.
Qed.

End Outcomes.

(** ** Claims *)

Section Claims.

Implicit Types (c : MemStore) (token id secret : string) (now : Time).

Lemma sampleToken_grammar : TokenGrammar sampleToken sampleID sampleSecret.
Proof. apply TokenGrammar_check. reflexivity. Defined.

Lemma malformed_check token :
  FindStringSubmatch token = [] → ¬ WellFormedToken token.
Proof.
  intros Hnil Hwf. apply FindStringSubmatch_length in Hwf.
  rewrite Hnil in Hwf. discriminate.
Defined.



(** C2. On a text that does not match the grammar [<id>.<secret>],
    [getToken] returns the malformed-token error and hands back the
    client in the state it received: no method of the client has run.
    This holds for every client; on the store that records its calls the
    log is as it was. *)
Theorem getToken_malformed_no_store_access {C : Type} `{Client C} (k : C) token :
  ¬ WellFormedToken token →
  getToken k token = ((None, Some (ErrTokenForm token)), k)
  ∧ MalformedTokenError (ErrTokenForm token)
  ∧ ∀ c, calls (getToken c token).2 = calls c.
Proof.
  intros Hbad. apply FindStringSubmatch_malformed in Hbad.
  split; [exact (getToken_malformed k _ Hbad)|].
  split; [now exists token|].
  intros c. now rewrite (getToken_malformed c _ Hbad).
Qed.

Lemma getToken_malformed_no_store_access_witness :
  getToken issuedStore "abcdef" = ((None, Some (ErrTokenForm "abcdef")), issuedStore)
  ∧ MalformedTokenError (ErrTokenForm "abcdef")
  ∧ calls (getToken issuedStore "abcdef").2 = calls issuedStore.
Proof.
  destruct (getToken_malformed_no_store_access issuedStore "abcdef"
              (malformed_check "abcdef" eq_refl)) as (Hget & Herr & Hcalls).
  split; [exact Hget|]. split; [exact Herr|]. apply Hcalls.
Defined.

(** C3, as the code has it.  [getToken] rejects an existing record only
    when the record has no data map at all; a record with a data map is
    returned without error whatever fields it holds.  A missing expiration
    shows later, in [shouldRotate], as a failure to parse the empty
    string. *)
Theorem getToken_rejects_only_nil_data c token id secret o :
  TokenGrammar token id secret →
  objects c !! tokenKey id = Some o →
  (storedData o = None →
   (getToken c token).1 = (None, Some (ErrInvalidSecret (BootstrapTokenSecretName id)))
   ∧ CorruptRecordError (ErrInvalidSecret (BootstrapTokenSecretName id)))
  ∧ (∀ data, storedData o = Some data →
       (getToken c token).1 = (Some (loaded (tokenKey id) o), None)
       ∧ (data !! BootstrapTokenExpirationKey = None →
          ∀ now, (shouldRotate now c token).1 = (false, Some (ErrTimeParse "")))).
Proof.
  intros Hg Hobj. split.
  - intros Hdata. rewrite (getToken_mem _ _ _ _ Hg), Hobj, Hdata.
    split; [reflexivity|]. left. eauto.
  - intros data Hdata. rewrite (getToken_mem _ _ _ _ Hg), Hobj, Hdata.
    split; [reflexivity|]. intros Hexp now.
    rewrite (shouldRotate_mem _ _ _ _ _ Hg), Hobj, Hdata, Hexp. reflexivity.
Qed.

Lemma getToken_rejects_only_nil_data_witness :
  (getToken noDataStore sampleToken).1
  = (None, Some (ErrInvalidSecret (BootstrapTokenSecretName sampleID)))
  ∧ (getToken noExpirationStore sampleToken).1
    = (Some (loaded (tokenKey sampleID)
               {| storedType := SecretTypeBootstrapToken;
                  storedData := Some {[ BootstrapTokenIDKey := sampleID ]} |}), None)
  ∧ (shouldRotate 0 noExpirationStore sampleToken).1 = (false, Some (ErrTimeParse "")).
Proof.
  split.
  - refine (proj1 (proj1 (getToken_rejects_only_nil_data noDataStore sampleToken
                            sampleID sampleSecret _ sampleToken_grammar _) _)).
    + vm_compute. reflexivity.
    + reflexivity.
  - destruct (getToken_rejects_only_nil_data noExpirationStore sampleToken
                sampleID sampleSecret _ sampleToken_grammar
                ltac:(vm_compute; reflexivity)) as [_ Hdata].
    destruct (Hdata _ eq_refl) as [Hget Hrotate].
    split; [exact Hget|]. apply Hrotate. vm_compute. reflexivity.
Defined.

(** C3, as stated, fails: the record of the sample id exists and has no
    expiration field, and [getToken] returns it without any error. *)
Lemma getToken_accepts_missing_expiration :
  is_Some (objects noExpirationStore !! tokenKey sampleID)
  ∧ storedField noExpirationStore sampleID BootstrapTokenExpirationKey = None
  ∧ (getToken noExpirationStore sampleToken).1.2 = None
  ∧ is_Some (getToken noExpirationStore sampleToken).1.1.
Proof.
  split; [vm_compute; eauto|]. split; [vm_compute; reflexivity|].
  split; [vm_compute; reflexivity|]. vm_compute; eauto.
Qed.

(** C4, as the code has it.  [createToken] draws one token per call and
    does not retry: when the token drawn fails the grammar self-check the
    call returns the malformed-token error at once, and the client is
    handed back in the state it was given (no store access).  This holds
    for every client. *)
Theorem createToken_single_draw {C : Type} `{Client C} rand now n (k : C) token :
  rand n = (token, None) →
  ¬ WellFormedToken token →
  createToken rand now (n, k) = (("", Some (ErrTokenForm token)), (S n, k))
  ∧ ∀ rand' now' n' (k' : C), (createToken rand' now' (n', k')).2.1 = S n'.
Proof.
  intros Hdraw Hbad. apply FindStringSubmatch_malformed in Hbad.
  split; [exact (createToken_malformed _ _ _ _ _ Hdraw Hbad)|].
  intros. apply createToken_draws.
Qed.

Lemma createToken_single_draw_witness :
  createToken badFirstDraw 0 (O, emptyStore)
  = (("", Some (ErrTokenForm "abcdef-0123456789abcdef")), (1%nat, emptyStore))
  ∧ (createToken sampleDraws 0 (3%nat, emptyStore)).2.1 = 4%nat.
Proof.
  destruct (createToken_single_draw badFirstDraw 0 O emptyStore
              "abcdef-0123456789abcdef" eq_refl
              (malformed_check "abcdef-0123456789abcdef" eq_refl))
    as (Hfail & Hdraws).
  split; [exact Hfail|]. apply Hdraws.
Defined.

(** C4, as stated, fails: the first draw is malformed and the second would
    be well formed, yet the call fails after that first draw alone. *)
Lemma createToken_fails_on_first_bad_draw :
  FindStringSubmatch (badFirstDraw 0%nat).1 = []
  ∧ FindStringSubmatch (badFirstDraw 1%nat).1 = [sampleToken; sampleID; sampleSecret]
  ∧ createToken badFirstDraw 0 (O, emptyStore)
    = (("", Some (ErrTokenForm "abcdef-0123456789abcdef")), (1%nat, emptyStore)).
Proof. repeat split. Qed.

(** C5, as the code has it.  After a successful [refreshToken] at instant
    [now1] the expiration of the record is the RFC 3339 text of [now1] plus
    [DefaultTokenTTL]; the text carries whole seconds, so it reads back as
    that instant cut to the second.  Against an expiration written at
    [now0] the new one is never earlier when the clock has not gone back,
    and it is strictly later when the clock has advanced by a second or
    more. *)
Theorem refreshToken_extends_expiration now1 c token id secret c' :
  TokenGrammar token id secret →
  refreshToken now1 c token = (None, c') →
  four_digit_year (now1 + DefaultTokenTTL) →
  storedField c' id BootstrapTokenExpirationKey
  = Some (Format (Add (UTC now1) DefaultTokenTTL))
  ∧ expiresAt c' id = Some (truncate_second (now1 + DefaultTokenTTL))
  ∧ (∀ now0,
       four_digit_year (now0 + DefaultTokenTTL) →
       storedField c id BootstrapTokenExpirationKey
       = Some (Format (Add (UTC now0) DefaultTokenTTL)) →
       ∃ e0 e1,
         expiresAt c id = Some e0 ∧ expiresAt c' id = Some e1
         ∧ (now0 <= now1 → e0 <= e1)
         ∧ (now0 + Second <= now1 → e0 < e1)).
Proof.
  intros Hg Hrefresh Hrange1.
  pose proof (refreshToken_storedField _ _ _ _ _ _ Hrefresh Hg) as Hfield1.
  assert (He1 : expiresAt c' id = Some (truncate_second (now1 + DefaultTokenTTL)))
    by (unfold expiresAt; rewrite Hfield1; apply (Parse_Format _ Hrange1)).
  split; [exact Hfield1|]. split; [exact He1|].
  intros now0 Hrange0 Hfield0.
  exists (truncate_second (now0 + DefaultTokenTTL)),
         (truncate_second (now1 + DefaultTokenTTL)).
  split; [unfold expiresAt; rewrite Hfield0; apply (Parse_Format _ Hrange0)|].
  split; [exact He1|]. split; intros Hclock.
  - apply truncate_second_mono. lia.
  - apply truncate_second_step. lia.
Qed.

Lemma refreshToken_extends_expiration_witness :
  storedField (refreshToken (8 * Minute) issuedStore sampleToken).2 sampleID
    BootstrapTokenExpirationKey
  = Some (Format (Add (UTC (8 * Minute)) DefaultTokenTTL))
  ∧ expiresAt (refreshToken (8 * Minute) issuedStore sampleToken).2 sampleID
    = Some (truncate_second (8 * Minute + DefaultTokenTTL))
  ∧ ∃ e0 e1,
      expiresAt issuedStore sampleID = Some e0
      ∧ expiresAt (refreshToken (8 * Minute) issuedStore sampleToken).2 sampleID = Some e1
      ∧ e0 < e1.
Proof.
  assert (Hcall : refreshToken (8 * Minute) issuedStore sampleToken
                  = (None, (refreshToken (8 * Minute) issuedStore sampleToken).2))
    by (vm_compute; reflexivity).
  assert (Hrange1 : four_digit_year (8 * Minute + DefaultTokenTTL))
    by (vm_compute; split; [discriminate|reflexivity]).
  assert (Hrange0 : four_digit_year (0 + DefaultTokenTTL))
    by (vm_compute; split; [discriminate|reflexivity]).
  assert (Hfield0 : storedField issuedStore sampleID BootstrapTokenExpirationKey
                    = Some (Format (Add (UTC 0) DefaultTokenTTL)))
    by (vm_compute; reflexivity).
  destruct (refreshToken_extends_expiration (8 * Minute) issuedStore sampleToken
              sampleID sampleSecret _ sampleToken_grammar Hcall Hrange1)
    as (Hfield & He & Hprev).
  split; [exact Hfield|]. split; [exact He|].
  destruct (Hprev 0 Hrange0 Hfield0) as (e0 & e1 & He0 & He1 & _ & Hlt).
  exists e0, e1. split; [exact He0|]. split; [exact He1|].
  apply Hlt. vm_compute. discriminate.
Defined.

(** C5, as stated, fails: the record was issued at instant 0 and is
    refreshed one nanosecond later, with success; the clock has advanced,
    yet the expiration is the one it was, 15 minutes after instant 0. *)
Lemma refreshToken_within_the_second :
  (createToken sampleDraws 0 (O, emptyStore)).2.2 = issuedStore
  ∧ (refreshToken 1 issuedStore sampleToken).1 = None
  ∧ expiresAt issuedStore sampleID = Some (15 * Minute)
  ∧ expiresAt (refreshToken 1 issuedStore sampleToken).2 sampleID = Some (15 * Minute).
Proof. repeat split; vm_compute; reflexivity. Qed.

(** C6, as the code has it.  The record written by a successful
    [createToken] at instant [now] is kept under the key made from the
    token id (namespace kube-system, name bootstrap-token-<id>); its
    expiration is the RFC 3339 text of [now] plus [DefaultTokenTTL], which
    carries whole seconds and so reads back as that instant cut to the
    second; the usage flags for signing and for authentication are both
    "true", and the group and the description are the fixed ones. *)
Theorem createToken_record rand now n c token st :
  createToken rand now (n, c) = ((token, None), st) →
  ∃ id secret,
    TokenGrammar token id secret
    ∧ tokenKey id = {| KeyNamespace := "kube-system";
                       KeyName := "bootstrap-token-" ++ id |}
    ∧ objects st.2 !! tokenKey id
      = Some {| storedType := "bootstrap.kubernetes.io/token";
                storedData := Some (issuedData id secret now) |}
    ∧ storedField st.2 id "expiration" = Some (Format (Add (UTC now) DefaultTokenTTL))
    ∧ (four_digit_year (now + DefaultTokenTTL) →
       expiresAt st.2 id = Some (truncate_second (now + DefaultTokenTTL)))
    ∧ storedField st.2 id "usage-bootstrap-signing" = Some "true"
    ∧ storedField st.2 id "usage-bootstrap-authentication" = Some "true"
    ∧ storedField st.2 id "auth-extra-groups"
      = Some "system:bootstrappers:kubeadm:default-node-token"
    ∧ storedField st.2 id "description"
      = Some "token generated by cluster-api-bootstrap-provider-kubeadm".
Proof.
  intros Hcreate.
  destruct (createToken_stored _ _ _ _ _ _ Hcreate) as (id & secret & Hg & _ & _ & Hst).
  destruct (issuedData_fields id secret now) as (_ & _ & Hexp & Hsign & Hauth & Hgrp & Hdesc).
  assert (Hread : four_digit_year (now + DefaultTokenTTL) →
                  expiresAt st.2 id = Some (truncate_second (now + DefaultTokenTTL))).
  { intros Hrange. unfold expiresAt.
    rewrite (createToken_storedField _ _ _ _ _ _ _ _ _ Hcreate Hg), Hexp.
    apply (Parse_Format _ Hrange). }
  exists id, secret. split; [exact Hg|]. split; [reflexivity|].
  split; [subst st; cbn [snd objects]; apply lookup_insert_eq|].
  rewrite !(createToken_storedField _ _ _ _ _ _ _ _ _ Hcreate Hg).
  auto 10.
Qed.

Lemma createToken_record_witness :
  ∃ id secret,
    TokenGrammar sampleToken id secret
    ∧ tokenKey id = {| KeyNamespace := "kube-system";
                       KeyName := "bootstrap-token-" ++ id |}
    ∧ objects issuedStore !! tokenKey id
      = Some {| storedType := "bootstrap.kubernetes.io/token";
                storedData := Some (issuedData id secret 0) |}
    ∧ storedField issuedStore id "expiration" = Some (Format (Add (UTC 0) DefaultTokenTTL))
    ∧ expiresAt issuedStore id = Some (truncate_second (0 + DefaultTokenTTL))
    ∧ storedField issuedStore id "usage-bootstrap-signing" = Some "true"
    ∧ storedField issuedStore id "usage-bootstrap-authentication" = Some "true"
    ∧ storedField issuedStore id "auth-extra-groups"
      = Some "system:bootstrappers:kubeadm:default-node-token"
    ∧ storedField issuedStore id "description"
      = Some "token generated by cluster-api-bootstrap-provider-kubeadm".
Proof.
  assert (Hcall : createToken sampleDraws 0 (O, emptyStore)
                  = ((sampleToken, None), (1%nat, issuedStore)))
    by (vm_compute; reflexivity).
  assert (Hrange : four_digit_year (0 + DefaultTokenTTL))
    by (vm_compute; split; [discriminate|reflexivity]).
  destruct (createToken_record sampleDraws 0 O emptyStore sampleToken
              (1%nat, issuedStore) Hcall)
    as (id & secret & Hg & Hkey & Hobj & Hexp & Hread & Hflags).
  exists id, secret. split; [exact Hg|]. split; [exact Hkey|].
  split; [exact Hobj|]. split; [exact Hexp|]. split; [exact (Hread Hrange)|].
  exact Hflags.
Defined.

(** C6, as stated, fails: [createToken] at one nanosecond past the epoch
    succeeds, and the expiration of the record it wrote is 15 minutes past
    the epoch, not that instant plus [DefaultTokenTTL]. *)
Lemma createToken_expiration_truncated :
  (createToken sampleDraws 1 (O, emptyStore)).1 = (sampleToken, None)
  ∧ expiresAt (createToken sampleDraws 1 (O, emptyStore)).2.2 sampleID
    = Some (15 * Minute)
  ∧ 15 * Minute ≠ 1 + DefaultTokenTTL.
Proof.
  split; [vm_compute; reflexivity|]. split; [vm_compute; reflexivity|].
  vm_compute. discriminate.
Qed.

(** C7. A token returned by a successful [createToken] matches the
    grammar: an id of 6 and a secret of 16 characters from a-z and 0-9,
    joined by a dot.  Parsing the token gives back that id and that secret,
    and they are the id and the secret written to the store. *)
Theorem createToken_token_roundtrip rand now n c token st :
  createToken rand now (n, c) = ((token, None), st) →
  ∃ id secret,
    token = id ++ "." ++ secret
    ∧ String.length id = 6%nat ∧ String.length secret = 16%nat
    ∧ token_chars id = true ∧ token_chars secret = true
    ∧ FindStringSubmatch token = [token; id; secret]
    ∧ storedField st.2 id BootstrapTokenIDKey = Some id
    ∧ storedField st.2 id BootstrapTokenSecretKey = Some secret.
Proof.
  intros Hcreate.
  destruct (createToken_ok _ _ _ _ _ _ Hcreate) as (_ & id & secret & Hg).
  exists id, secret.
  pose proof (FindStringSubmatch_grammar _ _ _ Hg) as Hfind.
  rewrite !(createToken_storedField _ _ _ _ _ _ _ _ _ Hcreate Hg).
  destruct (issuedData_fields id secret now) as (Hid & Hsecret & _).
  destruct Hg as (Htext & Hlid & Hlsecret & Hcid & Hcsecret).
  apply token_chars_forall in Hcid, Hcsecret. auto 10.
Qed.

Lemma createToken_token_roundtrip_witness :
  ∃ id secret,
    sampleToken = id ++ "." ++ secret
    ∧ String.length id = 6%nat ∧ String.length secret = 16%nat
    ∧ token_chars id = true ∧ token_chars secret = true
    ∧ FindStringSubmatch sampleToken = [sampleToken; id; secret]
    ∧ storedField issuedStore id BootstrapTokenIDKey = Some id
    ∧ storedField issuedStore id BootstrapTokenSecretKey = Some secret.
Proof.
  apply (createToken_token_roundtrip sampleDraws 0 O emptyStore sampleToken
           (1%nat, issuedStore)).
  vm_compute. reflexivity.
Defined.

(** C8. [getToken] and [shouldRotate] leave the objects of the store as
    they were.  A successful [refreshToken] rewrites the record of the
    token id with its expiration set and nothing else changed: the type and
    every other field of that record (id, secret, usage flags, groups,
    description) are kept, and so is every other record. *)
Theorem reads_and_refresh_frame :
  (∀ c token, objects (getToken c token).2 = objects c)
  ∧ (∀ now c token, objects (shouldRotate now c token).2 = objects c)
  ∧ (∀ now c token c',
       refreshToken now c token = (None, c') →
       ∃ id secret o data,
         TokenGrammar token id secret
         ∧ objects c !! tokenKey id = Some o
         ∧ storedData o = Some data
         ∧ objects c' !! tokenKey id
           = Some {| storedType := storedType o;
                     storedData := Some (<[BootstrapTokenExpirationKey :=
                                            Format (Add (UTC now) DefaultTokenTTL)]> data) |}
         ∧ (∀ key, key ≠ BootstrapTokenExpirationKey →
                   storedField c' id key = storedField c id key)
         ∧ (∀ k, k ≠ tokenKey id → objects c' !! k = objects c !! k)).
Proof.
  split; [intros c token; apply getToken_reads|].
  split; [exact shouldRotate_reads|].
  intros now c token c' Hrefresh.
  destruct (refreshToken_stored _ _ _ _ Hrefresh)
    as (id & secret & o & data & Hg & Hobj & Hdata & ->).
  exists id, secret, o, data. cbn [objects].
  split; [exact Hg|]. split; [exact Hobj|]. split; [exact Hdata|].
  split; [apply lookup_insert_eq|]. split.
  - intros key Hkey. unfold storedField. cbn [objects].
    rewrite lookup_insert_eq, Hobj. cbn [mbind option_bind refreshed storedData].
    rewrite Hdata. cbn [mbind option_bind].
    now apply lookup_insert_ne.
  - intros k Hk. now apply lookup_insert_ne.
Qed.

Lemma reads_and_refresh_frame_witness :
  objects (getToken issuedStore sampleToken).2 = objects issuedStore
  ∧ objects (shouldRotate 0 issuedStore sampleToken).2 = objects issuedStore
  ∧ storedField (refreshToken (8 * Minute) issuedStore sampleToken).2 sampleID
      BootstrapTokenSecretKey
    = storedField issuedStore sampleID BootstrapTokenSecretKey
  ∧ objects (refreshToken (8 * Minute) issuedStore sampleToken).2 !! tokenKey "zzzzzz"
    = objects issuedStore !! tokenKey "zzzzzz".
Proof.
  destruct reads_and_refresh_frame as (Hget & Hrotate & Hrefresh).
  split; [apply Hget|]. split; [apply Hrotate|].
  assert (Hcall : refreshToken (8 * Minute) issuedStore sampleToken
                  = (None, (refreshToken (8 * Minute) issuedStore sampleToken).2))
    by (vm_compute; reflexivity).
  destruct (Hrefresh _ _ _ _ Hcall)
    as (id & secret & o & data & Hg & _ & _ & _ & Hfields & Hothers).
  destruct (TokenGrammar_inj _ _ _ _ _ Hg sampleToken_grammar) as [-> _].
  split; [apply Hfields|apply Hothers]; discriminate.
Defined.

(** C9. When the id of the token drawn already has a record in the store,
    [createToken] returns the conflict error of the store's create, and
    the objects of the store are what they were: the record first written
    is still the one kept for the id. *)
Theorem createToken_conflict rand now n c token id secret o :
  rand n = (token, None) →
  TokenGrammar token id secret →
  objects c !! tokenKey id = Some o →
  ∃ st,
    createToken rand now (n, c) = (("", Some (ErrAlreadyExists (tokenKey id))), st)
    ∧ ConflictError (ErrAlreadyExists (tokenKey id))
    ∧ objects st.2 = objects c
    ∧ objects st.2 !! tokenKey id = Some o.
Proof.
  intros Hdraw Hg Hobj.
  rewrite (createToken_mem _ _ _ _ _ _ _ Hdraw Hg), Hobj.
  eexists. split; [reflexivity|]. split; [now exists (tokenKey id)|].
  split; [reflexivity|exact Hobj].
Qed.

Lemma createToken_conflict_witness :
  ∃ st,
    createToken sampleDraws (8 * Minute) (1%nat, issuedStore)
    = (("", Some (ErrAlreadyExists (tokenKey sampleID))), st)
    ∧ ConflictError (ErrAlreadyExists (tokenKey sampleID))
    ∧ objects st.2 = objects issuedStore
    ∧ objects st.2 !! tokenKey sampleID
      = Some {| storedType := SecretTypeBootstrapToken;
                storedData := Some (issuedData sampleID sampleSecret 0) |}.
Proof.
  apply (createToken_conflict sampleDraws (8 * Minute) 1%nat issuedStore sampleToken
           sampleID sampleSecret).
  - reflexivity.
  - exact sampleToken_grammar.
  - vm_compute. reflexivity.
Defined.

(** C10. When [getToken] fails, [refreshToken] returns that error and the
    client in the state [getToken] left it: no update is made.  This holds
    for every client.  On the in-memory store the objects are then what
    they were before the call, the log has grown by at most one [Get], and
    the error is the malformed-token error, the store's not-found error or
    the invalid-secret error. *)
Theorem refreshToken_atomic_on_error {C : Type} `{Client C} now (k k' : C) token s e :
  getToken k token = ((s, Some e), k') →
  refreshToken now k token = (Some e, k')
  ∧ ∀ c e',
      (getToken c token).1.2 = Some e' →
      (refreshToken now c token).1 = Some e'
      ∧ objects (refreshToken now c token).2 = objects c
      ∧ (calls (refreshToken now c token).2 = calls c
         ∨ ∃ key, calls (refreshToken now c token).2 = (calls c ++ [GetCall key])%list)
      ∧ (MalformedTokenError e' ∨ NotFoundError e' ∨ CorruptRecordError e').
Proof.
  intros Hget. split; [exact (refreshToken_getToken_error _ _ _ _ _ _ Hget)|].
  intros c e' Herr.
  destruct (getToken c token) as [[s' err] c1] eqn:Hget'. cbn [fst snd] in Herr. subst err.
  rewrite (refreshToken_getToken_error now _ _ _ _ _ Hget'). cbn [fst snd].
  pose proof (getToken_reads c token) as Hreads. rewrite Hget' in Hreads.
  split; [reflexivity|]. split; [exact (proj1 Hreads)|]. split; [exact (proj2 Hreads)|].
  destruct (FindStringSubmatch_cases token) as [Hnil|(id & secret & _ & Hg)].
  - rewrite (getToken_malformed c _ Hnil) in Hget'. injection Hget' as _ <- _.
    left. now exists token.
  - rewrite (getToken_mem _ _ _ _ Hg) in Hget'.
    destruct (objects c !! tokenKey id) as [o|]; [destruct (storedData o)|];
      try discriminate; injection Hget' as _ <- _; right.
    + right. left. eauto.
    + left. now exists (tokenKey id).
Qed.

Lemma refreshToken_atomic_on_error_witness :
  refreshToken 0 noDataStore sampleToken
  = (Some (ErrInvalidSecret (BootstrapTokenSecretName sampleID)),
     noted (GetCall (tokenKey sampleID)) noDataStore)
  ∧ (refreshToken 0 emptyStore sampleToken).1 = Some (ErrNotFound (tokenKey sampleID))
  ∧ objects (refreshToken 0 emptyStore sampleToken).2 = objects emptyStore
  ∧ (calls (refreshToken 0 emptyStore sampleToken).2 = calls emptyStore
     ∨ ∃ key, calls (refreshToken 0 emptyStore sampleToken).2
              = (calls emptyStore ++ [GetCall key])%list)
  ∧ (MalformedTokenError (ErrNotFound (tokenKey sampleID))
     ∨ NotFoundError (ErrNotFound (tokenKey sampleID))
     ∨ CorruptRecordError (ErrNotFound (tokenKey sampleID))).
Proof.
  assert (Hget : getToken noDataStore sampleToken
                 = ((None, Some (ErrInvalidSecret (BootstrapTokenSecretName sampleID))),
                    noted (GetCall (tokenKey sampleID)) noDataStore))
    by (vm_compute; reflexivity).
  destruct (refreshToken_atomic_on_error 0 noDataStore _ sampleToken _ _ Hget)
    as [Hrefresh Hmem].
  split; [exact Hrefresh|].
  apply (Hmem emptyStore (ErrNotFound (tokenKey sampleID))).
  vm_compute. reflexivity.
Defined.

End Claims.

(** ** Further properties of token.go *)

Section Lifecycle.

Implicit Types (c : MemStore) (token id secret : string) (now : Time).

Lemma tokenKey_inj id id' : tokenKey id = tokenKey id' → id = id'.
Proof.
  unfold tokenKey, BootstrapTokenSecretName, BootstrapTokenSecretPrefix.
  cbv [String.append]. intros Heq. now injection Heq.
Qed.

(** The four ways a call of [createToken] ends on the in-memory store. *)
Lemma createToken_cases rand now n c :
  (∃ token e,
      rand n = (token, Some e)
      ∧ createToken rand now (n, c)
        = (("", Some (ErrWrap e "unable to generate bootstrap token")), (S n, c)))
  ∨ (∃ token,
      rand n = (token, None) ∧ ¬ WellFormedToken token
      ∧ createToken rand now (n, c) = (("", Some (ErrTokenForm token)), (S n, c)))
  ∨ (∃ token id secret o,
      rand n = (token, None) ∧ TokenGrammar token id secret
      ∧ objects c !! tokenKey id = Some o
      ∧ createToken rand now (n, c)
        = (("", Some (ErrAlreadyExists (tokenKey id))),
           (S n, noted (CreateCall (tokenKey id)) c)))
  ∨ (∃ token id secret,
      rand n = (token, None) ∧ TokenGrammar token id secret
      ∧ objects c !! tokenKey id = None
      ∧ createToken rand now (n, c)
        = ((token, None),
           (S n,
            {| objects :=
                 <[tokenKey id := {| storedType := SecretTypeBootstrapToken;
                                     storedData := Some (issuedData id secret now) |}]>
                   (objects c);
               calls := calls (noted (CreateCall (tokenKey id)) c) |}))).
Proof.
  destruct (rand n) as [token [e|]] eqn:Hdraw.
  - left. exists token, e. split; [reflexivity|].
    exact (createToken_generator_error _ _ _ _ _ _ Hdraw).
  - right. destruct (FindStringSubmatch_cases token) as [Hnil|(id & secret & _ & Hg)].
    + left. exists token. split; [reflexivity|]. split.
      * intros Hwf. apply FindStringSubmatch_length in Hwf. now rewrite Hnil in Hwf.
      * exact (createToken_malformed _ _ _ _ _ Hdraw Hnil).
    + right. pose proof (createToken_mem _ now _ c _ _ _ Hdraw Hg) as Hmem.
      destruct (objects c !! tokenKey id) as [o|] eqn:Hobj.
      * left. exists token, id, secret, o. auto.
      * right. exists token, id, secret. auto.
Qed.

(** The four ways a call of [refreshToken] ends on the in-memory store. *)
Lemma refreshToken_cases now c token :
  (¬ WellFormedToken token ∧ refreshToken now c token = (Some (ErrTokenForm token), c))
  ∨ (∃ id secret,
      TokenGrammar token id secret ∧ objects c !! tokenKey id = None
      ∧ refreshToken now c token
        = (Some (ErrNotFound (tokenKey id)), noted (GetCall (tokenKey id)) c))
  ∨ (∃ id secret o,
      TokenGrammar token id secret ∧ objects c !! tokenKey id = Some o
      ∧ storedData o = None
      ∧ refreshToken now c token
        = (Some (ErrInvalidSecret (BootstrapTokenSecretName id)),
           noted (GetCall (tokenKey id)) c))
  ∨ (∃ id secret o data,
      TokenGrammar token id secret ∧ objects c !! tokenKey id = Some o
      ∧ storedData o = Some data
      ∧ refreshToken now c token
        = (None,
           {| objects := <[tokenKey id := refreshed o data now]> (objects c);
              calls := calls (noted (UpdateCall (tokenKey id))
                                (noted (GetCall (tokenKey id)) c)) |})).
Proof.
  destruct (FindStringSubmatch_cases token) as [Hnil|(id & secret & _ & Hg)].
  - left. split.
    + intros Hwf. apply FindStringSubmatch_length in Hwf. now rewrite Hnil in Hwf.
    + exact (refreshToken_getToken_error _ _ _ _ _ _ (getToken_malformed c _ Hnil)).
  - right. pose proof (refreshToken_mem now c _ _ _ Hg) as Hmem.
    destruct (objects c !! tokenKey id) as [o|] eqn:Hobj;
      [destruct (storedData o) as [data|] eqn:Hdata|].
    + right. right. exists id, secret, o, data. auto.
    + right. left. exists id, secret, o. auto.
    + left. exists id, secret. auto.
Qed.

(** Setting the expiration of an issued record gives the record issued at
    the later instant. *)
Lemma issuedData_refreshed id secret now0 now1 :
  <[BootstrapTokenExpirationKey := Format (Add (UTC now1) DefaultTokenTTL)]>
    (issuedData id secret now0)
  = issuedData id secret now1.
Proof.
  apply map_eq. intros key. unfold issuedData. cbn [list_to_map foldr uncurry fst snd].
  destruct (decide (key = BootstrapTokenExpirationKey)) as [->|Hexp].
  - rewrite lookup_insert_eq.
    rewrite !lookup_insert_ne by discriminate. now rewrite lookup_insert_eq.
  - rewrite lookup_insert_ne by congruence.
    rewrite !lookup_insert. repeat case_decide; congruence.
Qed.

Lemma twinToken_grammar : TokenGrammar twinToken sampleID "fedcba9876543210".
Proof. apply TokenGrammar_check. reflexivity. Defined.

Lemma otherToken_grammar : TokenGrammar otherToken "ghijkl" sampleSecret.
Proof. apply TokenGrammar_check. reflexivity. Defined.

(** X1. For every client, [createToken] returns either a well-formed token
    and no error, or the empty string and an error; never a token together
    with an error, never neither. *)
Theorem createToken_token_or_error {C : Type} `{Client C} rand now n (k : C) :
  ((createToken rand now (n, k)).1.2 = None
   ∧ WellFormedToken (createToken rand now (n, k)).1.1)
  ∨ ((createToken rand now (n, k)).1.1 = ""
     ∧ is_Some (createToken rand now (n, k)).1.2).
Proof.
  destruct (rand n) as [token [e|]] eqn:Hdraw.
  - right. rewrite (createToken_generator_error _ _ _ _ _ _ Hdraw). cbn. eauto.
  - destruct (FindStringSubmatch_cases token) as [Hnil|(id & secret & _ & Hg)].
    + right. rewrite (createToken_malformed _ _ _ _ _ Hdraw Hnil). cbn. eauto.
    + rewrite (createToken_wellformed _ _ _ _ _ _ _ Hdraw Hg).
      destruct (Create _ _) as [[e|] k']; cbn.
      * right. eauto.
      * left. split; [reflexivity|]. now exists id, secret.
Qed.

(** X2. On the in-memory store [createToken] succeeds exactly when the
    generator gave a token without error, the token is well formed, and no
    record is kept yet for its id. *)
Theorem createToken_success_iff rand now n c :
  (createToken rand now (n, c)).1.2 = None
  ↔ ∃ id secret,
      (rand n).2 = None
      ∧ TokenGrammar (rand n).1 id secret
      ∧ objects c !! tokenKey id = None.
Proof.
  destruct (createToken_cases rand now n c)
    as [(token & e & Hdraw & ->)
       |[(token & Hdraw & Hbad & ->)
        |[(token & id & secret & o & Hdraw & Hg & Hobj & ->)
         |(token & id & secret & Hdraw & Hg & Hobj & ->)]]];
    rewrite Hdraw; cbn [fst snd]; split.
  - discriminate.
  - intros (id & secret & Herr & _). discriminate.
  - discriminate.
  - intros (id & secret & _ & Hg & _). destruct Hbad. now exists id, secret.
  - discriminate.
  - intros (id' & secret' & _ & Hg' & Hobj').
    destruct (TokenGrammar_inj _ _ _ _ _ Hg Hg') as [<- _]. congruence.
  - intros _. exists id, secret. auto.
  - reflexivity.
Qed.

(** X3. A call of [createToken] that returns an error, whichever it is
    (generator failure, malformed draw, conflict), leaves the objects of
    the store as they were. *)
Theorem createToken_failure_keeps_objects rand now n c e :
  (createToken rand now (n, c)).1.2 = Some e →
  objects (createToken rand now (n, c)).2.2 = objects c.
Proof.
  destruct (createToken_cases rand now n c)
    as [(token & e' & Hdraw & ->)
       |[(token & Hdraw & Hbad & ->)
        |[(token & id & secret & o & Hdraw & Hg & Hobj & ->)
         |(token & id & secret & Hdraw & Hg & Hobj & ->)]]];
    cbn [fst snd]; try reflexivity.
  discriminate.
Qed.

Lemma createToken_failure_keeps_objects_witness :
  objects (createToken sampleDraws (8 * Minute) (1%nat, issuedStore)).2.2
  = objects issuedStore.
Proof.
  apply (createToken_failure_keeps_objects sampleDraws (8 * Minute) 1%nat issuedStore
           (ErrAlreadyExists (tokenKey sampleID))).
  vm_compute. reflexivity.
Defined.

(** X4. A successful [createToken] adds exactly one record: the key of the
    new id was free before, it is the only key added, and the record under
    every other key is the one it was. *)
Theorem createToken_adds_one_record rand now n c token st :
  createToken rand now (n, c) = ((token, None), st) →
  ∃ id secret,
    TokenGrammar token id secret
    ∧ (tokenKey id ∉ dom (objects c))
    ∧ dom (objects st.2) = {[tokenKey id]} ∪ dom (objects c)
    ∧ ∀ k, k ≠ tokenKey id → objects st.2 !! k = objects c !! k.
Proof.
  intros Hcreate.
  destruct (createToken_stored _ _ _ _ _ _ Hcreate) as (id & secret & Hg & _ & Hfree & ->).
  exists id, secret. cbn [snd objects].
  split; [exact Hg|]. split; [now apply not_elem_of_dom|].
  split; [apply dom_insert_L|].
  intros k Hk. now apply lookup_insert_ne.
Qed.

Lemma createToken_adds_one_record_witness :
  ∃ id secret,
    TokenGrammar sampleToken id secret
    ∧ (tokenKey id ∉ dom (objects emptyStore))
    ∧ dom (objects issuedStore) = {[tokenKey id]} ∪ dom (objects emptyStore)
    ∧ ∀ k, k ≠ tokenKey id → objects issuedStore !! k = objects emptyStore !! k.
Proof.
  apply (createToken_adds_one_record sampleDraws 0 O emptyStore sampleToken
           (1%nat, issuedStore)).
  vm_compute. reflexivity.
Defined.

(** X5. Create then get: on the store left by a successful [createToken],
    [getToken] on the returned token succeeds and returns the secret that
    was written, named bootstrap-token-<id> in kube-system, of the
    bootstrap token type, with the seven fields. *)
Theorem getToken_after_createToken rand now n c token st :
  createToken rand now (n, c) = ((token, None), st) →
  ∃ id secret,
    TokenGrammar token id secret
    ∧ (getToken st.2 token).1
      = (Some {| Name := BootstrapTokenSecretName id;
                 Namespace := NamespaceSystem;
                 SecretType := SecretTypeBootstrapToken;
                 Data := Some (issuedData id secret now) |}, None).
Proof.
  intros Hcreate.
  destruct (createToken_stored _ _ _ _ _ _ Hcreate) as (id & secret & Hg & _ & _ & ->).
  exists id, secret. split; [exact Hg|].
  rewrite (getToken_mem _ _ _ _ Hg). cbn [snd objects].
  rewrite lookup_insert_eq. reflexivity.
Qed.

Lemma getToken_after_createToken_witness :
  ∃ id secret,
    TokenGrammar sampleToken id secret
    ∧ (getToken issuedStore sampleToken).1
      = (Some {| Name := BootstrapTokenSecretName id;
                 Namespace := NamespaceSystem;
                 SecretType := SecretTypeBootstrapToken;
                 Data := Some (issuedData id secret 0) |}, None).
Proof.
  apply (getToken_after_createToken sampleDraws 0 O emptyStore sampleToken
           (1%nat, issuedStore)).
  vm_compute. reflexivity.
Defined.

(** X6. The secret half of a token plays no part in the three lookups: for
    every client, two well-formed tokens with the same id get the same
    result and leave the same state in [getToken], [refreshToken] and
    [shouldRotate]. *)
Theorem lookups_ignore_secret {C : Type} `{Client C} now (k : C)
    token token' id secret secret' :
  TokenGrammar token id secret →
  TokenGrammar token' id secret' →
  getToken k token = getToken k token'
  ∧ refreshToken now k token = refreshToken now k token'
  ∧ shouldRotate now k token = shouldRotate now k token'.
Proof.
  intros Hg Hg'.
  assert (Hget : getToken k token = getToken k token')
    by now rewrite (getToken_wellformed _ _ _ _ Hg), (getToken_wellformed _ _ _ _ Hg').
  unfold refreshToken, shouldRotate. now rewrite Hget.
Qed.

Lemma lookups_ignore_secret_witness :
  getToken issuedStore sampleToken = getToken issuedStore twinToken
  ∧ refreshToken (8 * Minute) issuedStore sampleToken
    = refreshToken (8 * Minute) issuedStore twinToken
  ∧ shouldRotate (8 * Minute) issuedStore sampleToken
    = shouldRotate (8 * Minute) issuedStore twinToken.
Proof.
  exact (lookups_ignore_secret (8 * Minute) issuedStore sampleToken twinToken
           sampleID sampleSecret "fedcba9876543210"
           sampleToken_grammar twinToken_grammar).
Defined.

(** X7. On the in-memory store [getToken] on a well-formed token succeeds
    exactly when a record with a data map is kept for the id; with no
    record it returns the store's not-found error together with the empty
    secret it had passed to [Get]. *)
Theorem getToken_success_iff c token id secret :
  TokenGrammar token id secret →
  ((getToken c token).1.2 = None
   ↔ ∃ o data, objects c !! tokenKey id = Some o ∧ storedData o = Some data)
  ∧ (objects c !! tokenKey id = None →
     (getToken c token).1 = (Some emptySecret, Some (ErrNotFound (tokenKey id)))).
Proof.
  intros Hg. rewrite (getToken_mem _ _ _ _ Hg).
  destruct (objects c !! tokenKey id) as [o|]; [destruct (storedData o) as [data|] eqn:Hdata|];
    cbn [fst snd]; (split; [split|]); try discriminate; try reflexivity.
  - intros _. eauto.
  - intros (o' & data' & Ho & Hd). injection Ho as <-. congruence.
  - intros (o' & data' & Ho & _). discriminate.
Qed.

Lemma getToken_success_iff_witness :
  ((getToken emptyStore sampleToken).1.2 = None
   ↔ ∃ o data, objects emptyStore !! tokenKey sampleID = Some o
               ∧ storedData o = Some data)
  ∧ (getToken emptyStore sampleToken).1
    = (Some emptySecret, Some (ErrNotFound (tokenKey sampleID))).
Proof.
  destruct (getToken_success_iff emptyStore sampleToken sampleID sampleSecret
              sampleToken_grammar) as [Hiff Hmissing].
  split; [exact Hiff|]. apply Hmissing. reflexivity.
Defined.

(** X8. On the in-memory store [getToken] returns the malformed-token
    error exactly on the texts that are not of the grammar; the error
    carries the text. *)
Theorem getToken_malformed_iff c token :
  (∃ t, (getToken c token).1.2 = Some (ErrTokenForm t)) ↔ ¬ WellFormedToken token.
Proof.
  destruct (FindStringSubmatch_cases token) as [Hnil|(id & secret & _ & Hg)].
  - rewrite (getToken_malformed c _ Hnil). cbn [fst snd]. split; [|eauto].
    intros _ Hwf. apply FindStringSubmatch_length in Hwf. now rewrite Hnil in Hwf.
  - rewrite (getToken_mem _ _ _ _ Hg). split.
    + destruct (objects c !! tokenKey id) as [o|]; [destruct (storedData o)|];
        intros [t Ht]; discriminate.
    + intros Hbad. destruct Hbad. now exists id, secret.
Qed.

(** X9. On the in-memory store [refreshToken] on a well-formed token
    succeeds exactly when a record with a data map is kept for the id; in
    particular it succeeds on a record whose expiration is missing or
    unreadable, and it never succeeds by creating a record. *)
Theorem refreshToken_success_iff now c token id secret :
  TokenGrammar token id secret →
  (refreshToken now c token).1 = None
  ↔ ∃ o data, objects c !! tokenKey id = Some o ∧ storedData o = Some data.
Proof.
  intros Hg. rewrite (refreshToken_mem _ _ _ _ _ Hg).
  destruct (objects c !! tokenKey id) as [o|]; [destruct (storedData o) as [data|] eqn:Hdata|];
    cbn [fst]; split; try discriminate; try reflexivity.
  - intros _. eauto.
  - intros (o' & data' & Ho & Hd). injection Ho as <-. congruence.
  - intros (o' & data' & Ho & _). discriminate.
Qed.

Lemma refreshToken_success_iff_witness :
  (refreshToken 0 noExpirationStore sampleToken).1 = None
  ↔ ∃ o data, objects noExpirationStore !! tokenKey sampleID = Some o
              ∧ storedData o = Some data.
Proof.
  exact (refreshToken_success_iff 0 noExpirationStore sampleToken sampleID sampleSecret
           sampleToken_grammar).
Defined.

(** X10. [refreshToken] never adds and never removes a record: whatever
    the token text and the outcome, the keys of the store after the call
    are the keys before it. *)
Theorem refreshToken_keeps_keys now c token :
  dom (objects (refreshToken now c token).2) = dom (objects c).
Proof.
  destruct (refreshToken_cases now c token)
    as [(_ & ->)
       |[(id & secret & _ & _ & ->)
        |[(id & secret & o & _ & _ & _ & ->)
         |(id & secret & o & data & _ & Hobj & _ & ->)]]];
    cbn [snd objects noted]; try reflexivity.
  rewrite dom_insert_L.
  apply subseteq_union_1_L, singleton_subseteq_l, elem_of_dom. eauto.
Qed.

(** X11. For every client, when [getToken] returns a secret without
    error, the secret has a data map, and [refreshToken] is the client's
    [Update] of that secret with the expiration set and the name, the
    namespace, the type and the other fields kept; the result of [Update]
    is returned as it is.  The write to a nil map is never reached. *)
Theorem refreshToken_passes_update_result {C : Type} `{Client C} now (k k1 : C) token s :
  getToken k token = ((Some s, None), k1) →
  ∃ data,
    Data s = Some data
    ∧ refreshToken now k token
      = Update k1 {| Name := Name s;
                     Namespace := Namespace s;
                     SecretType := SecretType s;
                     Data := Some (<[BootstrapTokenExpirationKey :=
                                      Format (Add (UTC now) DefaultTokenTTL)]> data) |}.
Proof.
  intros Hget.
  destruct (getToken_ok _ _ _ _ Hget) as (s' & data & Hs & Hdata).
  injection Hs as <-. exists data. split; [exact Hdata|].
  unfold refreshToken. now rewrite Hget, Hdata.
Qed.

Lemma refreshToken_passes_update_result_witness :
  ∃ data,
    Data (loaded (tokenKey sampleID)
            {| storedType := SecretTypeBootstrapToken;
               storedData := Some {[ BootstrapTokenIDKey := sampleID ]} |}) = Some data
    ∧ refreshToken 0 noExpirationStore sampleToken
      = Update (noted (GetCall (tokenKey sampleID)) noExpirationStore)
          {| Name := BootstrapTokenSecretName sampleID;
             Namespace := NamespaceSystem;
             SecretType := SecretTypeBootstrapToken;
             Data := Some (<[BootstrapTokenExpirationKey :=
                              Format (Add (UTC 0) DefaultTokenTTL)]> data) |}.
Proof.
  apply (refreshToken_passes_update_result 0 noExpirationStore
           (noted (GetCall (tokenKey sampleID)) noExpirationStore) sampleToken).
  vm_compute. reflexivity.
Defined.

(** X12. On the in-memory store [shouldRotate] on a well-formed token
    answers without error exactly when the record of the id has an
    expiration field that parses; no record, no data map, a missing field
    and an unreadable text all give an error. *)
Theorem shouldRotate_success_iff now c token id secret :
  TokenGrammar token id secret →
  (shouldRotate now c token).1.2 = None ↔ is_Some (expiresAt c id).
Proof.
  intros Hg. rewrite (shouldRotate_mem _ _ _ _ _ Hg). unfold expiresAt, storedField.
  destruct (objects c !! tokenKey id) as [o|]; cbn [mbind option_bind fst snd];
    [|split; [discriminate|intros [? ?]; discriminate]].
  destruct (storedData o) as [data|]; cbn [mbind option_bind fst snd];
    [|split; [discriminate|intros [? ?]; discriminate]].
  cbv zeta. destruct (data !! BootstrapTokenExpirationKey) as [text|];
    cbn [mbind option_bind from_option Datatypes.id].
  - destruct (Parse text); cbn [fst snd]; split; eauto; try discriminate.
    intros [? ?]; discriminate.
  - change (Parse "") with (@None Time). cbn [fst snd].
    split; [discriminate|intros [? ?]; discriminate].
Qed.

Lemma shouldRotate_success_iff_witness :
  (shouldRotate 0 issuedStore sampleToken).1.2 = None
  ↔ is_Some (expiresAt issuedStore sampleID).
Proof.
  exact (shouldRotate_success_iff 0 issuedStore sampleToken sampleID sampleSecret
           sampleToken_grammar).
Defined.

(** X13. For every client, [shouldRotate] answers true only without
    error: whenever it returns an error, the answer beside it is false. *)
Theorem shouldRotate_true_without_error {C : Type} `{Client C} now (k : C) token :
  (shouldRotate now k token).1.1 = true → (shouldRotate now k token).1.2 = None.
Proof.
  unfold shouldRotate. destruct (getToken k token) as [[s [e|]] k1]; cbn [fst snd];
    [discriminate|].
  destruct s as [s|]; cbn [fst snd]; [|discriminate].
  destruct (Parse _); cbn [fst snd]; [reflexivity|discriminate].
Qed.

Lemma shouldRotate_true_without_error_witness :
  (shouldRotate (8 * Minute) issuedStore sampleToken).1.2 = None.
Proof.
  apply (shouldRotate_true_without_error (8 * Minute) issuedStore sampleToken).
  vm_compute. reflexivity.
Defined.

(** X14. For every client and on the same state, [shouldRotate] only
    depends on the clock through its answer: the state left and the error
    are the same at any two clock readings, and an answer that is true
    stays true at every later reading. *)
Theorem shouldRotate_monotone {C : Type} `{Client C} now now' (k : C) token :
  now <= now' →
  (shouldRotate now k token).2 = (shouldRotate now' k token).2
  ∧ (shouldRotate now k token).1.2 = (shouldRotate now' k token).1.2
  ∧ ((shouldRotate now k token).1.1 = true → (shouldRotate now' k token).1.1 = true).
Proof.
  intros Hclock. unfold shouldRotate.
  destruct (getToken k token) as [[s [e|]] k1]; cbn [fst snd]; [auto|].
  destruct s as [s|]; cbn [fst snd]; [|auto].
  destruct (Parse _) as [e|]; cbn [fst snd]; [|auto].
  split; [reflexivity|]. split; [reflexivity|].
  unfold Before, Add, UTC. intros Hdue. apply Z.ltb_lt in Hdue. apply Z.ltb_lt. lia.
Qed.

Lemma shouldRotate_monotone_witness :
  (shouldRotate (8 * Minute) issuedStore sampleToken).2
  = (shouldRotate (20 * Minute) issuedStore sampleToken).2
  ∧ (shouldRotate (8 * Minute) issuedStore sampleToken).1.2
    = (shouldRotate (20 * Minute) issuedStore sampleToken).1.2
  ∧ (shouldRotate (20 * Minute) issuedStore sampleToken).1.1 = true.
Proof.
  destruct (shouldRotate_monotone (8 * Minute) (20 * Minute) issuedStore sampleToken
              ltac:(vm_compute; discriminate)) as (Hstate & Herr & Hdue).
  split; [exact Hstate|]. split; [exact Herr|]. apply Hdue. vm_compute. reflexivity.
Defined.

(** X15. A refresh overrides the refresh before it: on every store and
    token, the objects after [refreshToken] at [now1] and then at [now2]
    are the objects after [refreshToken] at [now2] alone. *)
Theorem refreshToken_overrides now1 now2 c token :
  objects (refreshToken now2 (refreshToken now1 c token).2 token).2
  = objects (refreshToken now2 c token).2.
Proof.
  destruct (refreshToken_cases now1 c token)
    as [(_ & ->)
       |[(id & secret & Hg & Hobj & ->)
        |[(id & secret & o & Hg & Hobj & Hdata & ->)
         |(id & secret & o & data & Hg & Hobj & Hdata & ->)]]];
    [reflexivity|..];
    rewrite !(refreshToken_mem now2 _ _ _ _ Hg); cbn [snd objects noted];
    rewrite ?Hobj, ?Hdata; try reflexivity.
  rewrite lookup_insert_eq. cbn [refreshed storedData storedType objects snd].
  rewrite insert_insert_eq. unfold refreshed. cbn [storedType].
  now rewrite insert_insert_eq.
Qed.

(** X16. Create, refresh, ask: after a successful [createToken], a
    [refreshToken] of the returned token succeeds at any later or earlier
    instant [now1], and from then on [shouldRotate] answers without error,
    true exactly when the clock plus half the TTL is past [now1] plus the
    TTL cut to the second.  The instant of issuance no longer counts. *)
Theorem shouldRotate_after_refresh rand now0 n c token st now1 :
  createToken rand now0 (n, c) = ((token, None), st) →
  four_digit_year (now1 + DefaultTokenTTL) →
  ∃ c1,
    refreshToken now1 st.2 token = (None, c1)
    ∧ ∀ now,
        (shouldRotate now c1 token).1
        = (bool_decide (truncate_second (now1 + DefaultTokenTTL)
                        < now + DefaultTokenTTL / 2), None).
Proof.
  intros Hcreate Hrange.
  destruct (createToken_stored _ _ _ _ _ _ Hcreate) as (id & secret & Hg & _ & _ & ->).
  pose proof (refreshToken_mem now1
                {| objects :=
                     <[tokenKey id := {| storedType := SecretTypeBootstrapToken;
                                         storedData := Some (issuedData id secret now0) |}]>
                       (objects c);
                   calls := calls (noted (CreateCall (tokenKey id)) c) |}
                _ _ _ Hg) as Hrefresh.
  cbn [objects] in Hrefresh. rewrite lookup_insert_eq in Hrefresh.
  cbn [storedData] in Hrefresh. cbn [snd].
  eexists. split; [exact Hrefresh|].
  intros now. apply (shouldRotate_expiresAt _ _ _ _ _ _ Hg).
  unfold expiresAt. rewrite (refreshToken_storedField _ _ _ _ _ _ Hrefresh Hg).
  apply (Parse_Format _ Hrange).
Qed.

Lemma shouldRotate_after_refresh_witness :
  ∃ c1,
    refreshToken (8 * Minute) issuedStore sampleToken = (None, c1)
    ∧ ∀ now,
        (shouldRotate now c1 sampleToken).1
        = (bool_decide (truncate_second (8 * Minute + DefaultTokenTTL)
                        < now + DefaultTokenTTL / 2), None).
Proof.
  apply (shouldRotate_after_refresh sampleDraws 0 O emptyStore sampleToken
           (1%nat, issuedStore) (8 * Minute)).
  - vm_compute. reflexivity.
  - vm_compute. split; [discriminate|reflexivity].
Defined.

(** X17. Calls made on a well-formed token: [getToken] and
    [shouldRotate] make exactly one call, a [Get] on the key of the id;
    [refreshToken] makes that [Get] and, exactly when it ends without
    error, one [Update] on the same key after it. *)
Theorem lookup_calls now c token id secret :
  TokenGrammar token id secret →
  calls (getToken c token).2 = (calls c ++ [GetCall (tokenKey id)])%list
  ∧ calls (shouldRotate now c token).2 = (calls c ++ [GetCall (tokenKey id)])%list
  ∧ calls (refreshToken now c token).2
    = ((calls c ++ [GetCall (tokenKey id)])
       ++ match (refreshToken now c token).1 with
          | None => [UpdateCall (tokenKey id)]
          | Some _ => []
          end)%list.
Proof.
  intros Hg.
  rewrite (getToken_mem _ _ _ _ Hg), (shouldRotate_mem _ _ _ _ _ Hg),
    (refreshToken_mem _ _ _ _ _ Hg).
  destruct (objects c !! tokenKey id) as [o|]; [destruct (storedData o)|];
    cbn [fst snd calls noted]; rewrite ?app_nil_r; auto.
Qed.

Lemma lookup_calls_witness :
  calls (getToken issuedStore sampleToken).2
  = (calls issuedStore ++ [GetCall (tokenKey sampleID)])%list
  ∧ calls (shouldRotate 0 issuedStore sampleToken).2
    = (calls issuedStore ++ [GetCall (tokenKey sampleID)])%list
  ∧ calls (refreshToken 0 issuedStore sampleToken).2
    = ((calls issuedStore ++ [GetCall (tokenKey sampleID)])
       ++ match (refreshToken 0 issuedStore sampleToken).1 with
          | None => [UpdateCall (tokenKey sampleID)]
          | Some _ => []
          end)%list.
Proof.
  exact (lookup_calls 0 issuedStore sampleToken sampleID sampleSecret sampleToken_grammar).
Defined.

(** X18. [createToken] calls the store at most once: when the generator
    fails or the token drawn is malformed it makes no call, and otherwise
    it makes exactly one [Create], on the key of the id drawn. *)
Theorem createToken_calls rand now n c :
  (calls (createToken rand now (n, c)).2.2 = calls c
   ∧ (is_Some (rand n).2 ∨ ¬ WellFormedToken (rand n).1))
  ∨ (∃ id secret,
       (rand n).2 = None
       ∧ TokenGrammar (rand n).1 id secret
       ∧ calls (createToken rand now (n, c)).2.2
         = (calls c ++ [CreateCall (tokenKey id)])%list).
Proof.
  destruct (createToken_cases rand now n c)
    as [(token & e' & Hdraw & ->)
       |[(token & Hdraw & Hbad & ->)
        |[(token & id & secret & o & Hdraw & Hg & Hobj & ->)
         |(token & id & secret & Hdraw & Hg & Hobj & ->)]]];
    rewrite Hdraw; cbn [fst snd calls noted].
  - left. eauto.
  - left. auto.
  - right. exists id, secret. auto.
  - right. exists id, secret. auto.
Qed.

(** Every record of a reachable store is a record as [createToken]
    writes it. *)
Lemma reachable_issued c :
  reachable c → ∀ k o, objects c !! k = Some o → issuedRecord k o.
Proof.
  intros Hreach.
  induction Hreach as [|rand now n c _ IH|c token _ IH|now c token _ IH|now c token _ IH];
      intros k o.
    - cbn. rewrite lookup_empty. discriminate.
    - destruct (createToken_cases rand now n c)
        as [(token & e' & Hdraw & ->)
           |[(token & Hdraw & Hbad & ->)
            |[(token & id & secret & o' & Hdraw & Hg & Hobj & ->)
             |(token & id & secret & Hdraw & Hg & Hobj & ->)]]];
        cbn [snd objects noted]; try apply IH.
      destruct (decide (k = tokenKey id)) as [->|Hk].
      + rewrite lookup_insert_eq. intros Ho. injection Ho as <-.
        now exists token, id, secret, now.
      + rewrite lookup_insert_ne by congruence. apply IH.
    - rewrite (proj1 (getToken_reads c token)). apply IH.
    - destruct (refreshToken_cases now c token)
        as [(_ & ->)
           |[(id & secret & _ & _ & ->)
            |[(id & secret & o' & _ & _ & _ & ->)
             |(id & secret & o' & data & Hg & Hobj & Hdata & ->)]]];
        cbn [snd objects noted]; try apply IH.
      destruct (decide (k = tokenKey id)) as [->|Hk].
      + rewrite lookup_insert_eq. intros Ho. injection Ho as <-.
        destruct (IH _ _ Hobj) as (token0 & id0 & secret0 & t0 & Hg0 & Hkey & ->).
        apply tokenKey_inj in Hkey. subst id0.
        cbn [storedData] in Hdata. injection Hdata as <-.
        exists token0, id, secret0, now. split; [exact Hg0|]. split; [reflexivity|].
        unfold refreshed. cbn [storedType]. now rewrite issuedData_refreshed.
      + rewrite lookup_insert_ne by congruence. apply IH.
    - rewrite shouldRotate_reads. apply IH.
Qed.

(** X19. Every record of a store reached from the empty store by calls of
    the four functions is a bootstrap token record in full: it is kept
    under the key of a 6-character id, has the bootstrap token type, and
    its data hold that id, a 16-character secret, an expiration written by
    [createToken] or [refreshToken], both usage flags, the group and the
    description. *)
Theorem reachable_records c k o :
  reachable c →
  objects c !! k = Some o →
  ∃ token id secret t data,
    TokenGrammar token id secret
    ∧ k = tokenKey id
    ∧ storedType o = SecretTypeBootstrapToken
    ∧ storedData o = Some data
    ∧ data !! BootstrapTokenIDKey = Some id
    ∧ data !! BootstrapTokenSecretKey = Some secret
    ∧ data !! BootstrapTokenExpirationKey = Some (Format (Add (UTC t) DefaultTokenTTL))
    ∧ data !! BootstrapTokenUsageSigningKey = Some "true"%string
    ∧ data !! BootstrapTokenUsageAuthentication = Some "true"%string
    ∧ data !! BootstrapTokenExtraGroupsKey
      = Some "system:bootstrappers:kubeadm:default-node-token"%string
    ∧ data !! BootstrapTokenDescriptionKey
      = Some "token generated by cluster-api-bootstrap-provider-kubeadm"%string.
Proof.
  intros Hreach Hobj.
  destruct (reachable_issued c Hreach k o Hobj) as (token & id & secret & t & Hg & -> & ->).
  exists token, id, secret, t, (issuedData id secret t).
  pose proof (issuedData_fields id secret t) as Hfields. cbn [storedType storedData].
  tauto.
Qed.

Lemma reachable_records_witness :
  ∃ token id secret t data,
    TokenGrammar token id secret
    ∧ tokenKey sampleID = tokenKey id
    ∧ storedType {| storedType := SecretTypeBootstrapToken;
                    storedData := Some (issuedData sampleID sampleSecret (8 * Minute)) |}
      = SecretTypeBootstrapToken
    ∧ storedData {| storedType := SecretTypeBootstrapToken;
                    storedData := Some (issuedData sampleID sampleSecret (8 * Minute)) |}
      = Some data
    ∧ data !! BootstrapTokenIDKey = Some id
    ∧ data !! BootstrapTokenSecretKey = Some secret
    ∧ data !! BootstrapTokenExpirationKey = Some (Format (Add (UTC t) DefaultTokenTTL))
    ∧ data !! BootstrapTokenUsageSigningKey = Some "true"%string
    ∧ data !! BootstrapTokenUsageAuthentication = Some "true"%string
    ∧ data !! BootstrapTokenExtraGroupsKey
      = Some "system:bootstrappers:kubeadm:default-node-token"%string
    ∧ data !! BootstrapTokenDescriptionKey
      = Some "token generated by cluster-api-bootstrap-provider-kubeadm"%string.
Proof.
  apply (reachable_records (refreshToken (8 * Minute) issuedStore twinToken).2
           (tokenKey sampleID)).
  - apply reach_refreshToken. apply (reach_createToken sampleDraws 0 O emptyStore).
    apply reach_empty.
  - vm_compute. reflexivity.
Defined.

(** X20. On a store reached from the empty store by calls of the four
    functions, the invalid-secret error of [getToken] is never returned,
    whatever the token text: not by [getToken], not by [refreshToken], not
    by [shouldRotate]. *)
Theorem reachable_no_invalid_secret now c token name :
  reachable c →
  (getToken c token).1.2 ≠ Some (ErrInvalidSecret name)
  ∧ (refreshToken now c token).1 ≠ Some (ErrInvalidSecret name)
  ∧ (shouldRotate now c token).1.2 ≠ Some (ErrInvalidSecret name).
Proof.
  intros Hreach.
  destruct (FindStringSubmatch_cases token) as [Hnil|(id & secret & _ & Hg)].
  - rewrite (refreshToken_getToken_error now _ _ _ _ _ (getToken_malformed c _ Hnil)),
      (shouldRotate_getToken_error now _ _ _ _ _ (getToken_malformed c _ Hnil)),
      (getToken_malformed c _ Hnil).
    cbn [fst snd]. repeat split; discriminate.
  - rewrite (getToken_mem _ _ _ _ Hg), (refreshToken_mem _ _ _ _ _ Hg),
      (shouldRotate_mem _ _ _ _ _ Hg).
    destruct (objects c !! tokenKey id) as [o|] eqn:Hobj;
      [|cbn [fst snd]; repeat split; discriminate].
    destruct (reachable_issued c Hreach _ _ Hobj) as (? & ? & ? & ? & _ & _ & ->).
    cbn [storedData fst snd]. cbv zeta.
    destruct (Parse _); cbn [fst snd]; repeat split; discriminate.
Qed.

Lemma reachable_no_invalid_secret_witness :
  (getToken issuedStore sampleToken).1.2
  ≠ Some (ErrInvalidSecret (BootstrapTokenSecretName sampleID))
  ∧ (refreshToken 0 issuedStore sampleToken).1
    ≠ Some (ErrInvalidSecret (BootstrapTokenSecretName sampleID))
  ∧ (shouldRotate 0 issuedStore sampleToken).1.2
    ≠ Some (ErrInvalidSecret (BootstrapTokenSecretName sampleID)).
Proof.
  apply (reachable_no_invalid_secret 0 issuedStore sampleToken).
  apply (reach_createToken sampleDraws 0 O emptyStore). apply reach_empty.
Defined.

(** X21. Refreshing one token never touches the record of another id:
    whatever the outcome, every field kept for an id other than the
    token's, and so its expiration, is what it was. *)
Theorem refreshToken_other_id_untouched now c token id secret id' :
  TokenGrammar token id secret →
  id' ≠ id →
  (∀ key, storedField (refreshToken now c token).2 id' key = storedField c id' key)
  ∧ expiresAt (refreshToken now c token).2 id' = expiresAt c id'.
Proof.
  intros Hg Hid.
  assert (Hobj : objects (refreshToken now c token).2 !! tokenKey id'
                 = objects c !! tokenKey id').
  { rewrite (refreshToken_mem _ _ _ _ _ Hg).
    destruct (objects c !! tokenKey id) as [o|]; [destruct (storedData o)|];
      cbn [snd objects noted]; try reflexivity.
    apply lookup_insert_ne. intros Hkey. apply tokenKey_inj in Hkey. congruence. }
  unfold expiresAt, storedField. rewrite Hobj. auto.
Qed.

Lemma refreshToken_other_id_untouched_witness :
  (∀ key, storedField (refreshToken (8 * Minute) issuedStore otherToken).2 sampleID key
          = storedField issuedStore sampleID key)
  ∧ expiresAt (refreshToken (8 * Minute) issuedStore otherToken).2 sampleID
    = expiresAt issuedStore sampleID.
Proof.
  apply (refreshToken_other_id_untouched (8 * Minute) issuedStore otherToken
           "ghijkl" sampleSecret sampleID otherToken_grammar).
  discriminate.
Defined.

(** X22. Refreshing a record that [createToken] wrote gives the record
    [createToken] would have written at the time of the refresh: same
    type, same id, secret, usage flags, group and description, and the
    expiration of the later instant.  Any token with the record's id does
    it, whatever its secret half. *)
Theorem refreshToken_reissues now0 now1 c token id secret secret' :
  TokenGrammar token id secret' →
  objects c !! tokenKey id
  = Some {| storedType := SecretTypeBootstrapToken;
            storedData := Some (issuedData id secret now0) |} →
  (refreshToken now1 c token).1 = None
  ∧ objects (refreshToken now1 c token).2 !! tokenKey id
    = Some {| storedType := SecretTypeBootstrapToken;
              storedData := Some (issuedData id secret now1) |}.
Proof.
  intros Hg Hobj. rewrite (refreshToken_mem _ _ _ _ _ Hg), Hobj.
  cbn [storedData fst snd objects]. split; [reflexivity|].
  rewrite lookup_insert_eq. unfold refreshed. cbn [storedType].
  now rewrite issuedData_refreshed.
Qed.

Lemma refreshToken_reissues_witness :
  (refreshToken (8 * Minute) issuedStore twinToken).1 = None
  ∧ objects (refreshToken (8 * Minute) issuedStore twinToken).2 !! tokenKey sampleID
    = Some {| storedType := SecretTypeBootstrapToken;
              storedData := Some (issuedData sampleID sampleSecret (8 * Minute)) |}.
Proof.
  apply (refreshToken_reissues 0 (8 * Minute) issuedStore twinToken sampleID
           sampleSecret "fedcba9876543210" twinToken_grammar).
  vm_compute. reflexivity.
Defined.

End Lifecycle.
